(** * TriangleProblem: the constraint solver of [triangle.c]

    [triangle.c] declares [typedef long double real] and states its geometry
    over that type.  The development keeps two readings of the same
    functions, each with the names and the shape they have in the C file.

    In the first, [real] is the field of real numbers [R]: [sqrtl] is
    [sqrt], [acosl] is [acos], [fabsl] is [Rabs] and a decimal literal
    denotes the decimal it spells.  It carries the statements about the
    solver loop, its convergence and the algebra of the construction.

    The reals neither round nor overflow, have no infinities and no NaN, and
    [/ 0] is [0] there.  In the second reading, module [LongDouble], [real]
    is an IEEE 754 binary format and every operation rounds as the format
    prescribes.  It carries the statements that rounding, underflow,
    overflow or a division by zero decide: the degenerate slopes, the unit
    lengths, the norm, and the comparison of the point [L] with the
    specification's formula. *)

From Stdlib Require Import ZArith Bool Reals Lra Lia Psatz.
From Stdlib Require Import Floats.SpecFloat.

Open Scope R_scope.

(** ** Constants ([#define]s of [triangle.c]) *)

Definition CONSTRAINT_SOLVER_MAX_ITERATIONS : nat := 1000.
Definition CONSTRAINT_SLOPE_INITIAL_GUESS : R := 1.0.
Definition CONSTRAINT_ERROR_TRANSFER_RATIO : R := 0.1.
Definition CONSTRAINT_ERROR_THRESHOLD : R := 0.0000000001.

(** [M_PI] comes from [<math.h>]; over the reals it is the constant pi. *)
Definition M_PI : R := PI.

Definition RADIANS_TO_DEGREES : R := 180 / M_PI.
Definition FIFTY_DEGREES_AS_RADIANS : R := 50 * M_PI / 180.

(** ** 2D vectors *)

Record vec2 : Type := mkvec2 { x : R; y : R }.

Definition vec2Subtract (a b : vec2) : vec2 :=
  {| x := x a - x b;
     y := y a - y b |}.

Definition vec2Dot (a b : vec2) : R :=
  x a * x b + y a * y b.

(** The argument handed to [sqrtl] inside [vec2Magnitude]. *)
Definition vec2MagnitudeRadicand (v : vec2) : R :=
  x v * x v + y v * y v.

Definition vec2Magnitude (v : vec2) : R :=
  sqrt (vec2MagnitudeRadicand v).

Definition vec2Angle (a b c : vec2) : R :=
  let ab := vec2Subtract b a in
  let cb := vec2Subtract b c in
  acos (vec2Dot ab cb / (vec2Magnitude ab * vec2Magnitude cb)).

(** ** The constraint evaluator

    The locals of [ConstraintTest] are given as functions of the slope so that
    statements can name them; [ConstraintTest] itself is their composition in
    the order of the C body. *)

Module CT.

Definition msqrt (m : R) : R := sqrt (m * m + 1.0).

Definition K (m : R) : vec2 :=
  {| x := 1.0 - 1.0 / sqrt (m * m + 1.0);
     y := m / sqrt (m * m + 1.0) |}.

Definition slopeK (m : R) : R := (msqrt m + 1.0) / m.

(** The argument handed to [sqrtl] for [j]. *)
Definition jRadicand (m : R) : R := 2.0 * x (K m).

Definition j (m : R) : R := sqrt (jRadicand m).

Definition A (m : R) : vec2 :=
  {| x := 0.5;
     y := slopeK m * 0.5 |}.

Definition magnitudeA (m : R) : R := vec2Magnitude (A m).

Definition i (m : R) : R := magnitudeA m - j m.

Definition L (m : R) : vec2 :=
  {| x := 1.0 - i m * 0.5 / magnitudeA m;
     y := i m * y (A m) / magnitudeA m |}.

Definition B : vec2 := {| x := 1.0; y := 0.0 |}.

(** The vertex [C] is the origin; the C file names it only in comments. *)
Definition C : vec2 := {| x := 0; y := 0 |}.

End CT.

Definition ConstraintTest (m : R) : R :=
  vec2Angle CT.B (CT.K m) (CT.L m).

(** ** The derived angle *)

Module Alpha.

(** The argument handed to [sqrtl] for [j] inside [alpha]. *)
Definition jRadicand (m : R) : R := 2.0 - 2.0 / sqrt (m * m + 1.0).

Definition j (m : R) : R := sqrt (jRadicand m).

Definition angleBCK (m : R) : R := acos (j m * 0.5) * RADIANS_TO_DEGREES.

End Alpha.

Definition alpha (m : R) : R :=
  180.0 - 2.0 * Alpha.angleBCK m.

(** ** The specification's reconstruction

    The closed-form reconstruction of section 4.2 of the specification,
    written from its sentences: powers as [m ^ 2], the point [L] through
    vector addition and scaling, the angle through the differences [a - b] and
    [c - b]. *)

Module Spec.

Definition add (a b : vec2) : vec2 :=
  {| x := x a + x b; y := y a + y b |}.

Definition scale (a : vec2) (k : R) : vec2 :=
  {| x := x a * k; y := y a * k |}.

Definition divide (a : vec2) (k : R) : vec2 :=
  {| x := x a / k; y := y a / k |}.

Definition angleBetween (a b c : vec2) : R :=
  acos (vec2Dot (vec2Subtract a b) (vec2Subtract c b) /
        (vec2Magnitude (vec2Subtract a b) * vec2Magnitude (vec2Subtract c b))).

Definition B : vec2 := {| x := 1; y := 0 |}.

Definition K (m : R) : vec2 :=
  {| x := 1 - 1 / sqrt (m ^ 2 + 1);
     y := m / sqrt (m ^ 2 + 1) |}.

Definition slopeK (m : R) : R := (sqrt (m ^ 2 + 1) + 1) / m.

Definition j (m : R) : R := sqrt (2 * x (K m)).

Definition A (m : R) : vec2 :=
  {| x := 0.5; y := slopeK m * 0.5 |}.

Definition i (m : R) : R := vec2Magnitude (A m) - j m.

Definition L (m : R) : vec2 :=
  add B (scale (divide (vec2Subtract (A m) B) (vec2Magnitude (A m))) (i m)).

Definition ConstraintTest (m : R) : R :=
  angleBetween B (K m) (L m).

End Spec.

(** ** The solver loop of [main]

    [main] keeps three locals: the counter [i], the slope [m] and [error],
    which holds no value until the loop body has run once. *)

Module Solver.

Record state : Type := mkstate {
  m : R;
  error : option R;
  i : nat
}.

(** [while (i > 0) { ... }], by recursion on the counter [i]. *)
Fixpoint loop (i : nat) (m : R) (error : option R) : state :=
  match i with
  | O => {| m := m; error := error; i := O |}
  | S i' =>
      let theta := ConstraintTest m in
      let error := theta - FIFTY_DEGREES_AS_RADIANS in
      if Rle_dec (Rabs error) CONSTRAINT_ERROR_THRESHOLD
      then {| m := m; error := Some error; i := S i' |}
      else loop i' (m + error * CONSTRAINT_ERROR_TRANSFER_RATIO) (Some error)
  end.

(** The state [main] holds when it leaves the loop. *)
Definition solved : state :=
  loop CONSTRAINT_SOLVER_MAX_ITERATIONS CONSTRAINT_SLOPE_INITIAL_GUESS None.

(** The four values handed to [printf]. *)
Record report : Type := mkreport {
  total_iterations : nat;
  slope_BK : R;
  angle_BKL_error : option R;
  alpha_degrees : R
}.

Definition main : report :=
  {| total_iterations := CONSTRAINT_SOLVER_MAX_ITERATIONS - i solved;
     slope_BK := m solved;
     angle_BKL_error := error solved;
     alpha_degrees := alpha (m solved) |}.

End Solver.

(** ** The specification's state machine

    Section 4.3 of the specification, written from its sentences: a state
    [(m, error, iterations_remaining)], one transition, and the two terminal
    conditions. *)

Module Machine.

Definition target : R := 50 * PI / 180.

Definition errorAt (m : R) : R := ConstraintTest m - target.

(** One iteration that neither converges nor finds the counter at zero. *)
Inductive transition : Solver.state -> Solver.state -> Prop :=
| update m e n :
    ~ Rabs (errorAt m) <= 1 / 10 ^ 10 ->
    transition (Solver.mkstate m e (S n))
               (Solver.mkstate (m + errorAt m * (1 / 10)) (Some (errorAt m)) n).

(** [terminal s s']: the loop stops in [s], leaving the state [s']. *)
Inductive terminal : Solver.state -> Solver.state -> Prop :=
| converged m e n :
    Rabs (errorAt m) <= 1 / 10 ^ 10 ->
    terminal (Solver.mkstate m e (S n))
             (Solver.mkstate m (Some (errorAt m)) (S n))
| exhausted m e :
    terminal (Solver.mkstate m e O) (Solver.mkstate m e O).

Inductive run : Solver.state -> Solver.state -> Prop :=
| run_stop s s' : terminal s s' -> run s s'
| run_step s s' s'' : transition s s' -> run s' s'' -> run s s''.

End Machine.

(** ** [long double] as an IEEE 754 binary format

    Rounding, underflow, overflow, division by zero and the values they
    produce have no counterpart in [R]; here the same C functions are read
    over [spec_float], operation for operation.  [acosl] belongs to the C
    library and stays a parameter. *)

Module LongDouble.

Record format : Type := mkformat { prec : Z; emax : Z }.

Definition x87_extended : format := {| prec := 64; emax := 16384 |}.
Definition binary64 : format := {| prec := 53; emax := 1024 |}.
Definition binary128 : format := {| prec := 113; emax := 16384 |}.

Record vec2 : Type := mkvec2 { x : spec_float; y : spec_float }.

Definition is_finite (r : spec_float) : bool :=
  match r with
  | S754_zero _ | S754_finite _ _ _ => true
  | S754_infinity _ | S754_nan => false
  end.

Section Operations.

Variable fmt : format.
Variable acosl : spec_float -> spec_float.

(** The literal [mantissa * 2 ^ exponent]. *)
Definition literal (mantissa exponent : Z) : spec_float :=
  binary_normalize (prec fmt) (emax fmt) mantissa exponent false.

Definition real_1_0 : spec_float := literal 1 0.
Definition real_2_0 : spec_float := literal 1 1.
Definition real_0_5 : spec_float := literal 1 (-1).
Definition real_0_0 : spec_float := S754_zero false.

Definition add : spec_float -> spec_float -> spec_float :=
  SFadd (prec fmt) (emax fmt).
Definition sub : spec_float -> spec_float -> spec_float :=
  SFsub (prec fmt) (emax fmt).
Definition mul : spec_float -> spec_float -> spec_float :=
  SFmul (prec fmt) (emax fmt).
Definition div : spec_float -> spec_float -> spec_float :=
  SFdiv (prec fmt) (emax fmt).
Definition sqrtl : spec_float -> spec_float :=
  SFsqrt (prec fmt) (emax fmt).

Definition vec2Subtract (a b : vec2) : vec2 :=
  {| x := sub (x a) (x b);
     y := sub (y a) (y b) |}.

Definition vec2Dot (a b : vec2) : spec_float :=
  add (mul (x a) (x b)) (mul (y a) (y b)).

Definition vec2Magnitude (v : vec2) : spec_float :=
  sqrtl (add (mul (x v) (x v)) (mul (y v) (y v))).

Definition vec2Angle (a b c : vec2) : spec_float :=
  let ab := vec2Subtract b a in
  let cb := vec2Subtract b c in
  acosl (div (vec2Dot ab cb) (mul (vec2Magnitude ab) (vec2Magnitude cb))).

Definition msqrt (m : spec_float) : spec_float :=
  sqrtl (add (mul m m) real_1_0).

Definition K (m : spec_float) : vec2 :=
  {| x := sub real_1_0 (div real_1_0 (sqrtl (add (mul m m) real_1_0)));
     y := div m (sqrtl (add (mul m m) real_1_0)) |}.

Definition slopeK (m : spec_float) : spec_float :=
  div (add (msqrt m) real_1_0) m.

Definition j (m : spec_float) : spec_float :=
  sqrtl (mul real_2_0 (x (K m))).

Definition A (m : spec_float) : vec2 :=
  {| x := real_0_5;
     y := mul (slopeK m) real_0_5 |}.

Definition magnitudeA (m : spec_float) : spec_float :=
  vec2Magnitude (A m).

Definition i (m : spec_float) : spec_float :=
  sub (magnitudeA m) (j m).

Definition L (m : spec_float) : vec2 :=
  {| x := sub real_1_0 (div (mul (i m) real_0_5) (magnitudeA m));
     y := div (mul (i m) (y (A m))) (magnitudeA m) |}.

Definition B : vec2 := {| x := real_1_0; y := real_0_0 |}.

Definition ConstraintTest (m : spec_float) : spec_float :=
  vec2Angle B (K m) (L m).

End Operations.

End LongDouble.

(** ** The angle in closed form

    Auxiliary functions of the slope used to analyse [ConstraintTest]: with
    [s = sqrt (m * m + 1)], the cotangent of the angle [BKL] is
    [w m = m * (3 * m * m - 1) / ((2 - s) * (2 - s) * (s + 1))]. *)

Module Closed.

Definition vec2Cross (a b : vec2) : R := x a * y b - y a * x b.

Definition sq (m : R) : R := sqrt (m * m + 1).

Definition num (m : R) : R := m * (3 * (m * m) - 1).

Definition d (s : R) : R := (2 - s) * (2 - s) * (s + 1).

Definition den (m : R) : R := d (sq m).

Definition w (m : R) : R := num m / den m.

End Closed.

(** ** The solver as a contraction *)

Module Contraction.

(** On [[a, b]] the map [m |-> atan (w m)] gains between [1 / 2] and [10]
    per unit of slope. *)
Definition StepOn (a b : R) : Prop :=
  forall x y, a <= x -> x <= y -> y <= b ->
  1 / 2 * (y - x) <= atan (Closed.w y) - atan (Closed.w x) <= 10 * (y - x).

(** What the loop preserves: after [k] updates the slope is still in
    [[3 / 4, 1]], the angle has not passed the target, and the error has
    shrunk by [19 / 20] at each update. *)
Definition Inv (k : nat) (m : R) : Prop :=
  3 / 4 <= m <= 1 /\
  - ((19 / 20) ^ k * (9 / 10)) <= Machine.errorAt m <= 0.

End Contraction.

(** ** Auxiliary notions for the geometry and for IEEE values *)

Module Geometry.

(** The mirror image in the line [CB] (the x axis). *)
Definition reflect (v : vec2) : vec2 := {| x := x v; y := - y v |}.

(** The slope whose angle is 40 degrees. *)
Definition root : R := tan (2 * PI / 9).

End Geometry.

Module Float754.

(** A positive or a negative zero. *)
Definition is_zero (r : spec_float) : bool :=
  match r with S754_zero _ => true | _ => false end.

End Float754.

(** ** The solver loop in the IEEE reading

    The three constants of the loop are [double] literals, converted to
    [long double] where they are used; the loop takes their values as
    arguments. *)

Module LongDoubleSolver.

Record state : Type := mkstate {
  m : spec_float;
  error : option spec_float;
  i : nat
}.

Section Loop.

Variable fmt : LongDouble.format.
Variable acosl : spec_float -> spec_float.
Variables target threshold ratio : spec_float.

Definition fabsl : spec_float -> spec_float := SFabs.

Fixpoint loop (i : nat) (m : spec_float) (error : option spec_float)
  : state :=
  match i with
  | O => {| m := m; error := error; i := O |}
  | S i' =>
      let theta := LongDouble.ConstraintTest fmt acosl m in
      let error := LongDouble.sub fmt theta target in
      if SFleb (fabsl error) threshold
      then {| m := m; error := Some error; i := S i' |}
      else loop i' (LongDouble.add fmt m (LongDouble.mul fmt error ratio))
                (Some error)
  end.

End Loop.

End LongDoubleSolver.

(** ** The geometry in the IEEE reading

    What rounding, underflow, overflow and NaN do to the geometric
    statements is stated over [LongDouble].  [LongDoubleSpec] is the
    closed-form reconstruction of section 4.2 of the specification with the
    operations of the format: the point [L] through vector addition,
    scaling and division, the angle through the differences [a - b] and
    [c - b]. *)

Module LongDoubleSpec.

Import LongDouble.


Section Operations.

Variable fmt : format.
Variable acosl : spec_float -> spec_float.

(** The argument handed to [sqrtl] inside [vec2Magnitude]. *)
Definition vec2MagnitudeRadicand (v : vec2) : spec_float :=
  add fmt (mul fmt (x v) (x v)) (mul fmt (y v) (y v)).


(** The argument handed to [sqrtl] for [j], [2.0*K.x]. *)
Definition jRadicand (m : spec_float) : spec_float :=
  mul fmt (real_2_0 fmt) (x (K fmt m)).

Definition vadd (a b : vec2) : vec2 :=
  {| x := add fmt (x a) (x b); y := add fmt (y a) (y b) |}.

Definition scale (a : vec2) (k : spec_float) : vec2 :=
  {| x := mul fmt (x a) k; y := mul fmt (y a) k |}.

Definition divide (a : vec2) (k : spec_float) : vec2 :=
  {| x := div fmt (x a) k; y := div fmt (y a) k |}.

Definition angleBetweenArgument (a b c : vec2) : spec_float :=
  div fmt (vec2Dot fmt (vec2Subtract fmt a b) (vec2Subtract fmt c b))
      (mul fmt (vec2Magnitude fmt (vec2Subtract fmt a b))
               (vec2Magnitude fmt (vec2Subtract fmt c b))).

Definition angleBetween (a b c : vec2) : spec_float :=
  acosl (angleBetweenArgument a b c).

Definition C : vec2 := {| x := real_0_0; y := real_0_0 |}.

Definition K (m : spec_float) : vec2 :=
  {| x := sub fmt (real_1_0 fmt)
              (div fmt (real_1_0 fmt)
                   (sqrtl fmt (add fmt (mul fmt m m) (real_1_0 fmt))));
     y := div fmt m (sqrtl fmt (add fmt (mul fmt m m) (real_1_0 fmt))) |}.

Definition slopeK (m : spec_float) : spec_float :=
  div fmt (add fmt (sqrtl fmt (add fmt (mul fmt m m) (real_1_0 fmt)))
                   (real_1_0 fmt)) m.

Definition j (m : spec_float) : spec_float :=
  sqrtl fmt (mul fmt (real_2_0 fmt) (x (K m))).

Definition A (m : spec_float) : vec2 :=
  {| x := real_0_5 fmt; y := mul fmt (slopeK m) (real_0_5 fmt) |}.

Definition i (m : spec_float) : spec_float :=
  sub fmt (vec2Magnitude fmt (A m)) (j m).

Definition L (m : spec_float) : vec2 :=
  vadd (B fmt)
       (scale (divide (vec2Subtract fmt (A m) (B fmt))
                      (vec2Magnitude fmt (A m))) (i m)).

Definition ConstraintTest (m : spec_float) : spec_float :=
  angleBetween (B fmt) (K m) (L m).

(** The slope [k / 64]. *)
Definition slope64 (k : nat) : spec_float := literal fmt (Z.of_nat k) (-6).

End Operations.

End LongDoubleSpec.

(** Signs of IEEE values. *)

Module Sign.

Definition is_nan (r : spec_float) : bool :=
  match r with S754_nan => true | _ => false end.

(** [+0], a positive number or [+infinity]: not NaN, sign bit clear. *)
Definition is_nonneg (r : spec_float) : bool :=
  match r with
  | S754_zero false | S754_infinity false | S754_finite false _ _ => true
  | _ => false
  end.

(** [r] is not NaN and carries the sign [s]. *)
Definition has_sign (s : bool) (r : spec_float) : Prop :=
  match r with
  | S754_zero s' | S754_infinity s' | S754_finite s' _ _ => s' = s
  | S754_nan => False
  end.



End Sign.

(** Lengths on a grid of slopes, in the x87 extended format. *)

Module Grid.

Import LongDouble.






(** The radicand of [j] at the slope [k / 64] is [>= 0]. *)
Definition jRadicand_nonneg (k : nat) : bool :=
  SFleb (S754_zero false)
        (LongDoubleSpec.jRadicand x87_extended
           (LongDoubleSpec.slope64 x87_extended k)).









Fixpoint below (n : nat) (p : nat -> bool) : bool :=
  match n with
  | O => true
  | S n' => p n' && below n' p
  end.


End Grid.

(** ** Decimal literals

    A literal such as [0.5] is a rational embedded in [R]; [ring] and [field]
    want it spelled with integers. *)

Lemma lit_1_0 : 1.0 = 1.
Proof. lra. Qed.

Lemma lit_2_0 : 2.0 = 2.
Proof. lra. Qed.

Lemma lit_0_0 : 0.0 = 0.
Proof. lra. Qed.

Lemma lit_0_5 : 0.5 = / 2.
Proof. lra. Qed.

Lemma lit_180_0 : 180.0 = 180.
Proof. lra. Qed.

Lemma lit_0_1 : 0.1 = / 10.
Proof. lra. Qed.

Ltac literals :=
  rewrite ?lit_1_0, ?lit_2_0, ?lit_0_0, ?lit_0_5, ?lit_180_0, ?lit_0_1 in *.

(** ** Vector primitives *)

Section VectorFacts.

Implicit Types a b c v : vec2.

Lemma vec2_eq v w : x v = x w -> y v = y w -> v = w.
Proof. destruct v, w; simpl; intros -> ->; reflexivity. Qed.

Lemma vec2MagnitudeRadicand_dot v :
  vec2MagnitudeRadicand v = vec2Dot v v.
Proof. reflexivity. Qed.

Lemma vec2MagnitudeRadicand_nonneg v : 0 <= vec2MagnitudeRadicand v.
Proof. unfold vec2MagnitudeRadicand; nra. Qed.

Lemma vec2MagnitudeRadicand_zero v :
  vec2MagnitudeRadicand v = 0 -> x v = 0 /\ y v = 0.
Proof. unfold vec2MagnitudeRadicand; intros H; split; nra. Qed.

Lemma vec2Magnitude_nonneg v : 0 <= vec2Magnitude v.
Proof. apply sqrt_pos. Qed.

Lemma vec2Magnitude_sqr v :
  vec2Magnitude v * vec2Magnitude v = vec2MagnitudeRadicand v.
Proof. apply sqrt_sqrt, vec2MagnitudeRadicand_nonneg. Qed.

(** Swapping the operands of both subtractions negates both vectors. *)
Lemma vec2Dot_swap a b c :
  vec2Dot (vec2Subtract b a) (vec2Subtract b c) =
  vec2Dot (vec2Subtract a b) (vec2Subtract c b).
Proof. unfold vec2Dot, vec2Subtract; simpl; ring. Qed.

Lemma vec2Magnitude_swap a b :
  vec2Magnitude (vec2Subtract b a) = vec2Magnitude (vec2Subtract a b).
Proof.
  unfold vec2Magnitude, vec2MagnitudeRadicand, vec2Subtract; simpl.
  f_equal; ring.
Qed.

(** A vector of known squared length [r * r], [0 <= r], has length [r]. *)
Lemma vec2Magnitude_of_square v r :
  0 <= r -> vec2MagnitudeRadicand v = r * r -> vec2Magnitude v = r.
Proof.
  intros Hr H. unfold vec2Magnitude. rewrite H. apply sqrt_square, Hr.
Qed.

End VectorFacts.

(** The specification's sample values. *)

Example vec2Magnitude_3_4 : vec2Magnitude {| x := 3; y := 4 |} = 5.
Proof.
  apply vec2Magnitude_of_square; [lra |].
  unfold vec2MagnitudeRadicand; simpl. lra.
Qed.

Example vec2Angle_right :
  vec2Angle {| x := 1; y := 0 |} {| x := 0; y := 0 |} {| x := 0; y := 1 |} =
  PI / 2.
Proof.
  unfold vec2Angle, vec2Dot, vec2Subtract; cbn [x y].
  replace ((0 - 1) * (0 - 0) + (0 - 0) * (0 - 1)) with 0 by ring.
  unfold Rdiv. rewrite Rmult_0_l. apply acos_0.
Qed.

(** C5. For points [a], [b], [c] with [a <> b] and [c <> b], [vec2Angle a b c]
    is [acos (dot (a - b) (c - b) / (|a - b| * |c - b|))], the angle at the
    vertex [b]: taking the differences as [b - a] and [b - c], as the code
    does, gives the same value. *)
Theorem vec2Angle_at_vertex (a b c : vec2) :
  a <> b -> c <> b ->
  vec2Angle a b c =
  acos (vec2Dot (vec2Subtract a b) (vec2Subtract c b) /
        (vec2Magnitude (vec2Subtract a b) * vec2Magnitude (vec2Subtract c b))).
Proof.
  intros _ _. unfold vec2Angle; cbv zeta.
  rewrite vec2Dot_swap, (vec2Magnitude_swap a b), (vec2Magnitude_swap c b).
  reflexivity.
Qed.

Lemma vec2Angle_at_vertex_witness :
  let a := {| x := 1; y := 0 |} in
  let b := {| x := 0; y := 0 |} in
  let c := {| x := 0; y := 1 |} in
  a <> b /\ c <> b /\
  vec2Angle a b c =
  acos (vec2Dot (vec2Subtract a b) (vec2Subtract c b) /
        (vec2Magnitude (vec2Subtract a b) * vec2Magnitude (vec2Subtract c b))).
Proof.
  cbv zeta.
  assert (Ha : {| x := 1; y := 0 |} <> {| x := 0; y := 0 |}).
  { intros H. apply (f_equal x) in H. simpl in H. lra. }
  assert (Hc : {| x := 0; y := 1 |} <> {| x := 0; y := 0 |}).
  { intros H. apply (f_equal y) in H. simpl in H. lra. }
  split; [exact Ha | split; [exact Hc |]].
  exact (vec2Angle_at_vertex _ _ _ Ha Hc).
Defined.

(** ** The point K and the length j *)

Section SlopeFacts.

Variable m : R.

Lemma msqrt_radicand_ge_1 : 1 <= m * m + 1.0.
Proof. nra. Qed.

Lemma msqrt_ge_1 : 1 <= sqrt (m * m + 1.0).
Proof.
  rewrite <- sqrt_1 at 1. apply sqrt_le_1_alt, msqrt_radicand_ge_1.
Qed.

Lemma msqrt_pos : 0 < sqrt (m * m + 1.0).
Proof. pose proof msqrt_ge_1; lra. Qed.

Lemma msqrt_sqr : sqrt (m * m + 1.0) * sqrt (m * m + 1.0) = m * m + 1.
Proof. rewrite sqrt_sqrt; nra. Qed.

Lemma inv_msqrt_le_1 : 1.0 / sqrt (m * m + 1.0) <= 1.
Proof.
  pose proof msqrt_ge_1 as H1. pose proof msqrt_pos as H0.
  apply Rmult_le_reg_r with (sqrt (m * m + 1.0)); [exact H0 |].
  unfold Rdiv. rewrite Rmult_assoc, Rinv_l; lra.
Qed.

Lemma K_x_nonneg : 0 <= x (CT.K m).
Proof. simpl. pose proof inv_msqrt_le_1. lra. Qed.

(** The two spellings of the radicand of [j] are the same real. *)
Lemma jRadicand_agree : Alpha.jRadicand m = CT.jRadicand m.
Proof. unfold Alpha.jRadicand, CT.jRadicand; simpl. nra. Qed.

Lemma BK_radicand : vec2MagnitudeRadicand (vec2Subtract CT.B (CT.K m)) = 1 * 1.
Proof.
  pose proof msqrt_pos as H0. pose proof msqrt_sqr as Hs.
  unfold vec2MagnitudeRadicand, vec2Subtract; simpl.
  set (s := sqrt (m * m + 1.0)) in *. literals.
  replace (1 - (1 - 1 / s)) with (/ s) by (field; lra).
  replace (0 - m / s) with (- m * / s) by (field; lra).
  assert (Hi : / s * s = 1) by (apply Rinv_l; lra).
  replace (/ s * / s + - m * / s * (- m * / s))
    with ((m * m + 1) * (/ s * / s)) by ring.
  rewrite <- Hs.
  replace (s * s * (/ s * / s)) with ((/ s * s) * (/ s * s)) by ring.
  rewrite Hi. ring.
Qed.

End SlopeFacts.

(** C4. For every [m], the length [j] that [alpha] recomputes as
    [sqrt (2.0 - 2.0 / sqrt (m * m + 1.0))] equals the [j] of [ConstraintTest],
    [sqrt (2.0 * K.x)] with [K.x = 1 - 1 / sqrt (m * m + 1)]. *)
Theorem alpha_j_agrees_with_ConstraintTest_j (m : R) :
  Alpha.j m = CT.j m.
Proof.
  unfold Alpha.j, CT.j. rewrite jRadicand_agree. reflexivity.
Qed.

(** ** The reconstruction against the specification, over the reals

    The identities of this section and of the previous one are exact over
    [R]: they are the algebra behind the construction.  The long double
    values follow them up to rounding only; what holds of those is stated
    in the last sections. *)

Section Reconstruction.

Variable m : R.

Lemma B_spec : CT.B = Spec.B.
Proof. unfold CT.B, Spec.B. literals. reflexivity. Qed.

Lemma K_spec : CT.K m = Spec.K m.
Proof.
  unfold CT.K, Spec.K. literals.
  replace (m ^ 2) with (m * m) by ring. reflexivity.
Qed.

Lemma slopeK_spec : CT.slopeK m = Spec.slopeK m.
Proof.
  unfold CT.slopeK, Spec.slopeK, CT.msqrt. literals.
  replace (m ^ 2) with (m * m) by ring. reflexivity.
Qed.

Lemma j_spec : CT.j m = Spec.j m.
Proof.
  unfold CT.j, Spec.j, CT.jRadicand. rewrite K_spec. literals. reflexivity.
Qed.

Lemma A_spec : CT.A m = Spec.A m.
Proof. unfold CT.A, Spec.A. rewrite slopeK_spec. reflexivity. Qed.

Lemma i_spec : CT.i m = Spec.i m.
Proof.
  unfold CT.i, Spec.i, CT.magnitudeA. rewrite A_spec, j_spec. reflexivity.
Qed.

(** The two coordinates the code writes for [L] are those of
    [B + (A - B) / |A| * i]. *)
Lemma L_spec : CT.L m = Spec.L m.
Proof.
  unfold CT.L, Spec.L, CT.magnitudeA. rewrite i_spec, A_spec.
  unfold Spec.add, Spec.scale, Spec.divide, vec2Subtract, Spec.B; simpl.
  set (M := vec2Magnitude (Spec.A m)). set (i := Spec.i m).
  set (s := Spec.slopeK m). literals.
  apply vec2_eq; cbn [x y]; unfold Rdiv; generalize (/ M); intros h; nra.
Qed.

Lemma A_radicand_pos : 0 < vec2MagnitudeRadicand (CT.A m).
Proof. unfold vec2MagnitudeRadicand; simpl. nra. Qed.

Lemma magnitudeA_pos : 0 < CT.magnitudeA m.
Proof. apply sqrt_lt_R0, A_radicand_pos. Qed.

Lemma magnitudeA_sqr :
  CT.magnitudeA m * CT.magnitudeA m = / 4 + y (CT.A m) * y (CT.A m).
Proof.
  unfold CT.magnitudeA. rewrite vec2Magnitude_sqr.
  unfold vec2MagnitudeRadicand; simpl. lra.
Qed.

Lemma BA_radicand :
  vec2MagnitudeRadicand (vec2Subtract (CT.A m) CT.B) =
  vec2MagnitudeRadicand (CT.A m).
Proof. unfold vec2MagnitudeRadicand, vec2Subtract; simpl. nra. Qed.

Lemma BA_direction_radicand :
  vec2MagnitudeRadicand
    (Spec.divide (vec2Subtract (CT.A m) CT.B) (CT.magnitudeA m)) = 1 * 1.
Proof.
  pose proof magnitudeA_pos as HM. pose proof magnitudeA_sqr as HM2.
  unfold vec2MagnitudeRadicand, Spec.divide, vec2Subtract. simpl x; simpl y.
  simpl in HM2.
  set (M := CT.magnitudeA m) in *. set (s := CT.slopeK m) in *. literals.
  assert (Hi : / M * M = 1) by (apply Rinv_l; lra).
  replace ((/ 2 - 1) / M * ((/ 2 - 1) / M) +
           (s * / 2 - 0) / M * ((s * / 2 - 0) / M))
    with ((/ 4 + s * / 2 * (s * / 2)) * (/ M * / M))
    by (unfold Rdiv; field; lra).
  rewrite <- HM2.
  replace (M * M * (/ M * / M)) with ((/ M * M) * (/ M * M)) by ring.
  rewrite Hi. ring.
Qed.

Lemma BL_radicand :
  vec2MagnitudeRadicand (vec2Subtract (CT.L m) CT.B) = Rsqr (CT.i m).
Proof.
  pose proof magnitudeA_pos as HM. pose proof magnitudeA_sqr as HM2.
  unfold vec2MagnitudeRadicand, vec2Subtract, Rsqr. simpl x; simpl y.
  simpl in HM2.
  set (M := CT.magnitudeA m) in *. set (s := CT.slopeK m) in *.
  set (i := CT.i m). literals.
  assert (Hi : / M * M = 1) by (apply Rinv_l; lra).
  replace ((1 - i * / 2 / M - 1) * (1 - i * / 2 / M - 1) +
           (i * (s * / 2) / M - 0) * (i * (s * / 2) / M - 0))
    with (i * i * ((/ 4 + s * / 2 * (s * / 2)) * (/ M * / M)))
    by (unfold Rdiv; field; lra).
  rewrite <- HM2.
  replace (M * M * (/ M * / M)) with ((/ M * M) * (/ M * M)) by ring.
  rewrite Hi. ring.
Qed.

End Reconstruction.

(** ** The solver loop against the state machine *)

Section SolverFacts.

Lemma target_spec : FIFTY_DEGREES_AS_RADIANS = Machine.target.
Proof. reflexivity. Qed.

Lemma threshold_spec : CONSTRAINT_ERROR_THRESHOLD = 1 / 10 ^ 10.
Proof. unfold CONSTRAINT_ERROR_THRESHOLD. lra. Qed.

Lemma ratio_spec : CONSTRAINT_ERROR_TRANSFER_RATIO = 1 / 10.
Proof. unfold CONSTRAINT_ERROR_TRANSFER_RATIO. lra. Qed.

Lemma loop_exhausted m e :
  Solver.loop 0 m e = Solver.mkstate m e 0.
Proof. reflexivity. Qed.

Lemma loop_converged n m e :
  Rabs (Machine.errorAt m) <= 1 / 10 ^ 10 ->
  Solver.loop (S n) m e = Solver.mkstate m (Some (Machine.errorAt m)) (S n).
Proof.
  intros H. simpl. rewrite target_spec, threshold_spec.
  fold (Machine.errorAt m).
  destruct (Rle_dec (Rabs (Machine.errorAt m)) (1 / 10 ^ 10)) as [_ | Hn];
    [reflexivity | contradiction].
Qed.

Lemma loop_update n m e :
  ~ Rabs (Machine.errorAt m) <= 1 / 10 ^ 10 ->
  Solver.loop (S n) m e =
  Solver.loop n (m + Machine.errorAt m * (1 / 10)) (Some (Machine.errorAt m)).
Proof.
  intros H. simpl. rewrite target_spec, threshold_spec, ratio_spec.
  fold (Machine.errorAt m).
  destruct (Rle_dec (Rabs (Machine.errorAt m)) (1 / 10 ^ 10)) as [Hy | _];
    [contradiction | reflexivity].
Qed.

Lemma loop_runs n : forall m e,
  Machine.run (Solver.mkstate m e n) (Solver.loop n m e).
Proof.
  induction n as [| n IH]; intros m e.
  - apply Machine.run_stop. rewrite loop_exhausted. constructor.
  - destruct (Rle_dec (Rabs (Machine.errorAt m)) (1 / 10 ^ 10)) as [Hy | Hn].
    + rewrite (loop_converged _ _ _ Hy).
      apply Machine.run_stop. constructor. exact Hy.
    + rewrite (loop_update _ _ _ Hn).
      eapply Machine.run_step; [constructor; exact Hn | apply IH].
Qed.

Lemma run_deterministic s s' :
  Machine.run s s' ->
  s' = Solver.loop (Solver.i s) (Solver.m s) (Solver.error s).
Proof.
  induction 1 as [s s' Hstop | s s' s'' Hstep _ IH].
  - destruct Hstop as [m e n Hy | m e]; simpl.
    + symmetry. apply (loop_converged n m e Hy).
    + reflexivity.
  - destruct Hstep as [m e n Hn]. cbn [Solver.i Solver.m Solver.error] in *.
    rewrite (loop_update _ _ _ Hn). exact IH.
Qed.

End SolverFacts.

(** C2. From any state [(m, error, i)] the loop of [main] proceeds as the
    state machine of the specification: with [i > 0] it evaluates
    [theta = ConstraintTest m] and [error = theta - 50 * pi / 180]; when
    [|error| <= 1e-10] it stops with [m] unchanged; otherwise it moves to
    [m + error * 0.1] with the counter decremented; with the counter at zero
    it stops with the [m] and [error] it holds.  The state it stops in is the
    only one the machine can reach. *)
Theorem solver_loop_is_state_machine (n : nat) (m : R) (e : option R) :
  Machine.run (Solver.mkstate m e n) (Solver.loop n m e) /\
  (forall s', Machine.run (Solver.mkstate m e n) s' -> s' = Solver.loop n m e).
Proof.
  split.
  - apply loop_runs.
  - intros s' H. apply (run_deterministic _ _ H).
Qed.

(** ** The degenerate slope *)

Section DegenerateSlope.

Import LongDouble.

Variable acosl : spec_float -> spec_float.
Hypothesis acosl_nan : acosl S754_nan = S754_nan.

Variable sign : bool.

Lemma slopeK_zero_x87 :
  slopeK x87_extended (S754_zero sign) = S754_infinity sign.
Proof. destruct sign; vm_compute; reflexivity. Qed.

Lemma slopeK_zero_binary64 :
  slopeK binary64 (S754_zero sign) = S754_infinity sign.
Proof. destruct sign; vm_compute; reflexivity. Qed.

Lemma slopeK_zero_binary128 :
  slopeK binary128 (S754_zero sign) = S754_infinity sign.
Proof. destruct sign; vm_compute; reflexivity. Qed.

Lemma L_zero_x87 :
  L x87_extended (S754_zero sign) = {| x := S754_nan; y := S754_nan |}.
Proof. destruct sign; vm_compute; reflexivity. Qed.

Lemma L_zero_binary64 :
  L binary64 (S754_zero sign) = {| x := S754_nan; y := S754_nan |}.
Proof. destruct sign; vm_compute; reflexivity. Qed.

Lemma L_zero_binary128 :
  L binary128 (S754_zero sign) = {| x := S754_nan; y := S754_nan |}.
Proof. destruct sign; vm_compute; reflexivity. Qed.

(** Whatever [K] is, an angle towards a point without coordinates is
    [acosl] of a NaN. *)
Lemma vec2Angle_nan fmt (b k : vec2) :
  vec2Angle fmt acosl b k {| x := S754_nan; y := S754_nan |} = S754_nan.
Proof.
  unfold vec2Angle; cbv zeta.
  assert (Hcb : vec2Subtract fmt k {| x := S754_nan; y := S754_nan |} =
                {| x := S754_nan; y := S754_nan |}).
  { unfold vec2Subtract, sub; simpl. destruct (x k), (y k); reflexivity. }
  rewrite Hcb.
  assert (Hdot : forall v, vec2Dot fmt v {| x := S754_nan; y := S754_nan |} =
                           S754_nan).
  { intros v. unfold vec2Dot, add, mul; simpl.
    destruct (x v); reflexivity. }
  rewrite Hdot. unfold div. simpl. exact acosl_nan.
Qed.

End DegenerateSlope.

(** C6. [ConstraintTest] is defined at the slope zero (of either sign) and
    returns there a value that is not finite: the division by [m] makes
    [slopeK] infinite, both coordinates of [L] become NaN, and the result is
    the NaN that [acosl] returns for a NaN argument.  This holds whether
    [long double] is the x87 extended format, binary64 or binary128. *)
Theorem ConstraintTest_zero_not_finite
    (fmt : LongDouble.format) (acosl : spec_float -> spec_float) (sign : bool) :
  fmt = LongDouble.x87_extended \/ fmt = LongDouble.binary64 \/
    fmt = LongDouble.binary128 ->
  acosl S754_nan = S754_nan ->
  LongDouble.is_finite (LongDouble.slopeK fmt (S754_zero sign)) = false /\
  LongDouble.ConstraintTest fmt acosl (S754_zero sign) = S754_nan /\
  LongDouble.is_finite
    (LongDouble.ConstraintTest fmt acosl (S754_zero sign)) = false.
Proof.
  intros Hfmt Hacos.
  assert (HK : LongDouble.is_finite
                 (LongDouble.slopeK fmt (S754_zero sign)) = false).
  { destruct Hfmt as [-> | [-> | ->]].
    - rewrite slopeK_zero_x87. reflexivity.
    - rewrite slopeK_zero_binary64. reflexivity.
    - rewrite slopeK_zero_binary128. reflexivity. }
  assert (HC : LongDouble.ConstraintTest fmt acosl (S754_zero sign) = S754_nan).
  { unfold LongDouble.ConstraintTest.
    destruct Hfmt as [-> | [-> | ->]].
    - rewrite L_zero_x87. apply vec2Angle_nan, Hacos.
    - rewrite L_zero_binary64. apply vec2Angle_nan, Hacos.
    - rewrite L_zero_binary128. apply vec2Angle_nan, Hacos. }
  split; [exact HK | split; [exact HC |]].
  rewrite HC. reflexivity.
Qed.

Lemma ConstraintTest_zero_not_finite_witness :
  let acosl := fun r : spec_float =>
    match r with S754_nan => S754_nan | _ => S754_zero false end in
  LongDouble.ConstraintTest LongDouble.x87_extended acosl (S754_zero false)
    = S754_nan.
Proof.
  cbv zeta.
  apply (ConstraintTest_zero_not_finite LongDouble.x87_extended _ false).
  - left; reflexivity.
  - reflexivity.
Defined.

(** ** The angle as an arctangent *)

Section AngleAsAtan.

Variables ab cb : vec2.
Hypothesis cross_pos : 0 < Closed.vec2Cross ab cb.

Let P := vec2Dot ab cb.
Let Q := Closed.vec2Cross ab cb.
Let n := vec2Magnitude ab * vec2Magnitude cb.

(** Lagrange's identity: dot squared plus cross squared is the product of
    the squared lengths. *)
Lemma lagrange : P * P + Q * Q = n * n.
Proof.
  unfold n.
  set (A := vec2Magnitude ab). set (B := vec2Magnitude cb).
  replace (A * B * (A * B)) with ((A * A) * (B * B)) by ring.
  unfold A, B. rewrite !vec2Magnitude_sqr.
  unfold P, Q, vec2Dot, Closed.vec2Cross, vec2MagnitudeRadicand. ring.
Qed.

Lemma n_pos : 0 < n.
Proof.
  pose proof lagrange as H.
  assert (0 <= n).
  { unfold n. apply Rmult_le_pos; apply vec2Magnitude_nonneg. }
  assert (0 < Q) by exact cross_pos.
  nra.
Qed.

(** With a positive cross product the angle is the arc-cotangent of
    dot over cross. *)
Lemma acos_as_atan : acos (P / n) = PI / 2 - atan (P / Q).
Proof.
  pose proof lagrange as H. pose proof n_pos as Hn.
  assert (HQ : 0 < Q) by exact cross_pos.
  assert (Hin : / n * n = 1) by (apply Rinv_l; lra).
  assert (Hu : -1 < P / n < 1).
  { assert (Hlt : P * P < n * n) by nra.
    split.
    - apply Rmult_lt_reg_r with n; [lra |].
      unfold Rdiv. rewrite Rmult_assoc, Hin. nra.
    - apply Rmult_lt_reg_r with n; [lra |].
      unfold Rdiv. rewrite Rmult_assoc, Hin. nra. }
  unfold acos.
  destruct (Rle_dec (P / n) (-1)) as [Hc | _]; [lra |].
  destruct (Rle_dec 1 (P / n)) as [Hc | _]; [lra |].
  f_equal. f_equal.
  assert (Hs : sqrt (1 - (P / n)²) = Q / n).
  { apply sqrt_lem_1.
    - unfold Rsqr. nra.
    - apply Rlt_le, Rdiv_lt_0_compat; lra.
    - unfold Rsqr. field_simplify; [| lra | lra].
      replace (n ^ 2) with (n * n) by ring.
      rewrite <- H. field. nra. }
  rewrite Hs. field. split; lra.
Qed.

End AngleAsAtan.

(** ** The closed form of [ConstraintTest] *)

Section SqFacts.

Lemma sq_sqr m : Closed.sq m * Closed.sq m = m * m + 1.
Proof. unfold Closed.sq. rewrite sqrt_sqrt; nra. Qed.

Lemma sq_ge_1 m : 1 <= Closed.sq m.
Proof.
  unfold Closed.sq. rewrite <- sqrt_1 at 1. apply sqrt_le_1_alt. nra.
Qed.

End SqFacts.

Section ClosedForm.

Variable m : R.
Hypothesis m_pos : 0 < m.

Let s := Closed.sq m.

Lemma sq_gt_1 : 1 < s.
Proof.
  pose proof (sq_sqr m) as H2. pose proof (sq_ge_1 m) as H1.
  fold s in H1, H2. nra.
Qed.

Lemma msqrt_sq : sqrt (m * m + 1.0) = s.
Proof. unfold s, Closed.sq. literals. reflexivity. Qed.

Lemma K_closed : CT.K m = {| x := 1 - / s; y := m * / s |}.
Proof.
  unfold CT.K. rewrite msqrt_sq. literals.
  apply vec2_eq; cbn [x y]; lra.
Qed.

Lemma A_closed : CT.A m = {| x := / 2; y := (s + 1) * / m * / 2 |}.
Proof.
  unfold CT.A, CT.slopeK, CT.msqrt. rewrite msqrt_sq. literals.
  apply vec2_eq; cbn [x y]; unfold Rdiv; lra.
Qed.

Lemma j_sqr : CT.j m * CT.j m = 2 * (1 - / s).
Proof.
  unfold CT.j. rewrite sqrt_sqrt.
  - unfold CT.jRadicand. rewrite K_closed. cbn [x]. literals. reflexivity.
  - unfold CT.jRadicand. pose proof (K_x_nonneg m). lra.
Qed.

Lemma M_sqr :
  CT.magnitudeA m * CT.magnitudeA m =
  / 4 + (s + 1) * / m * / 2 * ((s + 1) * / m * / 2).
Proof.
  rewrite magnitudeA_sqr, A_closed. reflexivity.
Qed.

(** [|CA| * |CK| = 1]: the triangles [CBK] and [CAB] are similar. *)
Lemma j_times_M : CT.j m * CT.magnitudeA m = 1.
Proof.
  pose proof (sq_sqr m) as Hs; fold s in Hs. pose proof sq_gt_1 as Hs1.
  assert (Hj : 0 <= CT.j m) by apply sqrt_pos.
  assert (HM : 0 < CT.magnitudeA m) by apply magnitudeA_pos.
  assert (Hsq : (CT.j m * CT.magnitudeA m) * (CT.j m * CT.magnitudeA m) = 1).
  { replace (CT.j m * CT.magnitudeA m * (CT.j m * CT.magnitudeA m))
      with ((CT.j m * CT.j m) * (CT.magnitudeA m * CT.magnitudeA m)) by ring.
    rewrite j_sqr, M_sqr.
    field_simplify_eq; [| split; lra].
    nra. }
  assert (0 <= CT.j m * CT.magnitudeA m) by nra.
  nra.
Qed.

Lemma inv_M : / CT.magnitudeA m = CT.j m.
Proof.
  pose proof j_times_M as H. pose proof (magnitudeA_pos m) as HM.
  apply Rmult_eq_reg_r with (CT.magnitudeA m); [| lra].
  rewrite Rinv_l; lra.
Qed.

Lemma L_closed :
  CT.L m = {| x := 3 / 2 - / s; y := (s + 1) * / m * / 2 * (2 * / s - 1) |}.
Proof.
  pose proof j_sqr as Hj. pose proof j_times_M as HjM.
  unfold CT.L, CT.i. rewrite A_closed. cbn [y]. unfold Rdiv.
  rewrite inv_M. literals.
  set (j := CT.j m) in *. set (M := CT.magnitudeA m) in *.
  apply vec2_eq; cbn [x y].
  - replace (1 - (M - j) * / 2 * j)
      with (1 - / 2 * (M * j) + / 2 * (j * j)) by ring.
    rewrite Hj. replace (M * j) with (j * M) by ring. rewrite HjM. lra.
  - replace ((M - j) * ((s + 1) * / m * / 2) * j)
      with ((s + 1) * / m * / 2 * (j * M - j * j)) by ring.
    rewrite Hj, HjM. f_equal. lra.
Qed.

Let ab := vec2Subtract (CT.K m) CT.B.
Let cb := vec2Subtract (CT.K m) (CT.L m).

Lemma dot_closed : vec2Dot ab cb = (3 * (m * m) - 1) / (2 * (s * s)).
Proof.
  pose proof (sq_sqr m) as Hs; fold s in Hs. pose proof sq_gt_1 as Hs1.
  unfold ab, cb. rewrite L_closed, K_closed.
  unfold vec2Dot, vec2Subtract, CT.B; cbn [x y]. literals.
  field_simplify_eq; [| split; lra].
  nra.
Qed.

Lemma cross_closed :
  Closed.vec2Cross ab cb = Closed.den m / (2 * (s * s) * m).
Proof.
  pose proof (sq_sqr m) as Hs; fold s in Hs. pose proof sq_gt_1 as Hs1.
  unfold ab, cb. rewrite L_closed, K_closed.
  unfold Closed.vec2Cross, Closed.den, Closed.d, vec2Subtract, CT.B; cbn [x y].
  fold s. literals.
  field_simplify_eq; [| repeat split; lra].
  nra.
Qed.

Hypothesis s_lt_2 : s < 2.

Lemma den_pos : 0 < Closed.den m.
Proof.
  pose proof sq_gt_1. unfold Closed.den. fold s.
  apply Rmult_lt_0_compat; [| lra]. apply Rmult_lt_0_compat; lra.
Qed.

(** For a positive slope below [sqrt 3] the angle [BKL] is the
    arc-cotangent of [w m]. *)
Lemma ConstraintTest_closed : ConstraintTest m = PI / 2 - atan (Closed.w m).
Proof.
  pose proof (sq_sqr m) as Hs; fold s in Hs.
  pose proof sq_gt_1 as Hs1. pose proof den_pos as Hd.
  assert (Hc : 0 < Closed.vec2Cross ab cb).
  { rewrite cross_closed. apply Rdiv_lt_0_compat; [exact Hd | nra]. }
  unfold ConstraintTest, vec2Angle; cbv zeta. fold ab cb.
  rewrite (acos_as_atan ab cb Hc). f_equal. f_equal.
  rewrite dot_closed, cross_closed. unfold Closed.w, Closed.num.
  field. repeat split; lra.
Qed.

End ClosedForm.

(** ** Bounds on [atan] and on pi *)

Section AtanBounds.

(** The mean value theorem for [atan]. *)
Lemma atan_mean_value u v :
  u < v -> exists c, u < c < v /\ atan v - atan u = (v - u) * / (1 + c * c).
Proof.
  intros Huv.
  destruct (MVT_cor2 atan (fun c => / (1 + c ^ 2)) u v Huv) as [c [Hc Hin]].
  { intros c _. apply derivable_pt_lim_atan. }
  exists c. split; [exact Hin |].
  rewrite Hc. replace (c ^ 2) with (c * c) by ring. ring.
Qed.

Lemma atan_diff_upper u v :
  0 <= u <= v -> atan v - atan u <= (v - u) * / (1 + u * u).
Proof.
  intros [Hu [Huv | ->]]; [| nra].
  destruct (atan_mean_value u v Huv) as [c [Hc ->]].
  apply Rmult_le_compat_l; [lra |].
  apply Rinv_le_contravar; nra.
Qed.

Lemma atan_diff_lower u v :
  0 <= u <= v -> (v - u) * / (1 + v * v) <= atan v - atan u.
Proof.
  intros [Hu [Huv | ->]]; [| nra].
  destruct (atan_mean_value u v Huv) as [c [Hc ->]].
  apply Rmult_le_compat_l; [lra |].
  apply Rinv_le_contravar; nra.
Qed.

Lemma atan_le_id v : 0 <= v -> atan v <= v.
Proof.
  intros Hv. pose proof (atan_diff_upper 0 v (conj (Rle_refl 0) Hv)) as H.
  rewrite atan_0 in H.
  replace ((v - 0) * / (1 + 0 * 0)) with v in H by field. lra.
Qed.

(** From Machin's formula [PI / 4 = 2 * atan (/ 3) + atan (/ 7)]. *)
Lemma PI_upper : PI <= 68 / 21.
Proof.
  pose proof Machin_2_3_7 as H.
  assert (H3 : atan (/ 3) <= / 3) by (apply atan_le_id; lra).
  assert (H7 : atan (/ 7) <= / 7) by (apply atan_le_id; lra).
  lra.
Qed.

Lemma PI_lower : 3 < PI.
Proof. pose proof PI2_3_2. lra. Qed.

End AtanBounds.

(** ** How fast the cotangent varies *)

Section Fractions.

Lemma frac_le_compat a a' b b' :
  0 <= a <= a' -> 0 < b' <= b -> a / b <= a' / b'.
Proof.
  intros [Ha Haa] [Hb Hbb].
  unfold Rdiv. apply Rmult_le_compat; try lra.
  - apply Rlt_le, Rinv_0_lt_compat; lra.
  - apply Rinv_le_contravar; lra.
Qed.

Lemma frac_nonneg a b : 0 <= a -> 0 < b -> 0 <= a / b.
Proof.
  intros Ha Hb. unfold Rdiv. apply Rmult_le_pos; [lra |].
  apply Rlt_le, Rinv_0_lt_compat; lra.
Qed.

End Fractions.

Section Variation.

Lemma sq_between m lo hi :
  0 <= lo -> 0 <= hi -> lo * lo <= m * m + 1 <= hi * hi ->
  lo <= Closed.sq m <= hi.
Proof.
  intros Hlo Hhi [H1 H2].
  pose proof (sq_sqr m) as Hs. pose proof (sq_ge_1 m) as Hs1.
  split.
  - destruct (Rle_dec lo (Closed.sq m)); [assumption | nra].
  - destruct (Rle_dec (Closed.sq m) hi); [assumption | nra].
Qed.

Lemma sq_step x y :
  0 <= x <= y ->
  Closed.sq x <= Closed.sq y /\ Closed.sq y - Closed.sq x <= y - x.
Proof.
  intros [Hx Hxy].
  pose proof (sq_sqr x) as Hsx. pose proof (sq_ge_1 x) as Hsx1.
  pose proof (sq_sqr y) as Hsy. pose proof (sq_ge_1 y) as Hsy1.
  set (sx := Closed.sq x) in *. set (sy := Closed.sq y) in *.
  assert (Hx' : x <= sx) by (destruct (Rle_dec x sx); [assumption | nra]).
  assert (Hy' : y <= sy) by (destruct (Rle_dec y sy); [assumption | nra]).
  assert (Hle : sx <= sy) by (destruct (Rle_dec sx sy); [assumption | nra]).
  split; [exact Hle |].
  assert (Hprod : (sy - sx) * (sy + sx) = (y - x) * (y + x)) by nra.
  destruct (Rle_dec (sy - sx) (y - x)) as [H | H]; [exact H |].
  assert (Hgt : y - x < sy - sx) by lra.
  assert ((y - x) * (y + x) <= (y - x) * (sy + sx))
    by (apply Rmult_le_compat_l; lra).
  assert ((y - x) * (sy + sx) < (sy - sx) * (sy + sx))
    by (apply Rmult_lt_compat_r; lra).
  lra.
Qed.

Lemma d_diff s1 s2 :
  Closed.d s1 - Closed.d s2 =
  (s2 - s1) * (3 * (s1 + s2) - (s1 * s1 + s1 * s2 + s2 * s2)).
Proof. unfold Closed.d. ring. Qed.

Lemma d_pos s : 1 <= s < 2 -> 0 < Closed.d s.
Proof.
  intros [H1 H2]. unfold Closed.d.
  apply Rmult_lt_0_compat; [| lra]. apply Rmult_lt_0_compat; lra.
Qed.

Lemma d_slope_bounds lo hi s1 s2 :
  1 <= lo -> hi <= 2 -> lo <= s1 <= s2 -> s2 <= hi ->
  0 <= 3 * (s1 + s2) - (s1 * s1 + s1 * s2 + s2 * s2) <=
  6 * hi - 3 * (lo * lo).
Proof.
  intros Hlo Hhi [H1 H12] H2. split.
  - assert (2 <= s1 * (3 - s1)) by nra.
    assert (2 <= s2 * (3 - s2)) by nra.
    assert (s1 * s2 <= 4) by nra.
    lra.
  - assert (lo * lo <= s1 * s1) by nra.
    assert (lo * lo <= s1 * s2) by nra.
    assert (lo * lo <= s2 * s2) by nra.
    lra.
Qed.

Lemma d_decreasing s1 s2 :
  1 <= s1 <= s2 -> s2 <= 2 -> Closed.d s2 <= Closed.d s1.
Proof.
  intros [H1 H12] H2.
  pose proof (d_diff s1 s2) as Hd.
  destruct (d_slope_bounds 1 2 s1 s2) as [HG _]; try lra.
  assert (0 <= (s2 - s1) * (3 * (s1 + s2) - (s1 * s1 + s1 * s2 + s2 * s2)))
    by (apply Rmult_le_pos; lra).
  lra.
Qed.

Lemma num_diff x y :
  Closed.num y - Closed.num x = (y - x) * (3 * (x * x + x * y + y * y) - 1).
Proof. unfold Closed.num. ring. Qed.

Lemma num_slope_bounds lo hi x y :
  0 <= lo -> lo <= x <= y -> y <= hi ->
  9 * (lo * lo) - 1 <= 3 * (x * x + x * y + y * y) - 1 <= 9 * (hi * hi) - 1.
Proof.
  intros Hlo [H1 H12] H2.
  assert (lo * lo <= x * x) by nra.
  assert (lo * lo <= x * y) by nra.
  assert (lo * lo <= y * y) by nra.
  assert (x * x <= hi * hi) by nra.
  assert (x * y <= hi * hi) by nra.
  assert (y * y <= hi * hi) by nra.
  lra.
Qed.

End Variation.

Section Inverses.

Lemma le_times_inv a b c : 0 < c -> a * c <= b -> a <= b * / c.
Proof.
  intros Hc H. apply Rmult_le_reg_r with c; [exact Hc |].
  rewrite Rmult_assoc, Rinv_l, Rmult_1_r by lra. exact H.
Qed.

Lemma times_inv_le a b c : 0 < c -> b <= a * c -> b * / c <= a.
Proof.
  intros Hc H. apply Rmult_le_reg_r with c; [exact Hc |].
  rewrite Rmult_assoc, Rinv_l, Rmult_1_r by lra. exact H.
Qed.

End Inverses.

(** One piece [[p, q]] of the slope axis, on which [sqrt (m * m + 1)] stays
    within [[sl, su]].  Numerator and denominator of [w] are monotone there,
    which bounds [w] and its increments by their values at the ends. *)

Section Piece.

Variables p q sl su : R.

Hypothesis p_large : 1 <= 3 * (p * p).
Hypothesis p_pos : 0 < p.
Hypothesis sl_ge_1 : 1 <= sl.
Hypothesis su_ge_1 : 1 <= su.
Hypothesis su_lt_2 : su < 2.
Hypothesis sl_ok : sl * sl <= p * p + 1.
Hypothesis su_ok : q * q + 1 <= su * su.

Let DL := Closed.d su.
Let DU := Closed.d sl.
Let NL := Closed.num p.
Let NU := Closed.num q.
Let Gmax := 6 * su - 3 * (sl * sl).
Let Nlo := 9 * (p * p) - 1.
Let Nhi := 9 * (q * q) - 1.

Lemma piece_sq x : p <= x <= q -> sl <= Closed.sq x <= su.
Proof.
  intros [H1 H2].
  apply sq_between; [lra | lra | split; nra].
Qed.

Lemma piece_den x y :
  p <= x -> x <= y -> y <= q ->
  0 < DL /\ DL <= Closed.den y /\ Closed.den y <= Closed.den x /\
  Closed.den x <= DU /\ Closed.den x - Closed.den y <= Gmax * (y - x).
Proof.
  intros Hpx Hxy Hyq.
  destruct (piece_sq x) as [Hx1 Hx2]; [lra |].
  destruct (piece_sq y) as [Hy1 Hy2]; [lra |].
  destruct (sq_step x y) as [Hs1 Hs2]; [lra |].
  unfold Closed.den.
  set (sx := Closed.sq x) in *. set (sy := Closed.sq y) in *.
  split; [apply d_pos; lra |].
  split; [apply d_decreasing; lra |].
  split; [apply d_decreasing; lra |].
  split; [apply d_decreasing; lra |].
  rewrite d_diff.
  destruct (d_slope_bounds sl su sx sy) as [HG1 HG2]; try lra.
  fold Gmax in HG2.
  rewrite (Rmult_comm Gmax).
  apply Rmult_le_compat; lra.
Qed.

Lemma piece_num x y :
  p <= x -> x <= y -> y <= q ->
  0 <= NL /\ NL <= Closed.num x /\ Closed.num x <= Closed.num y /\
  Closed.num y <= NU /\
  Nlo * (y - x) <= Closed.num y - Closed.num x <= Nhi * (y - x).
Proof.
  intros Hpx Hxy Hyq.
  assert (Hmono : forall a b, p <= a -> a <= b -> b <= q ->
            Nlo * (b - a) <= Closed.num b - Closed.num a <= Nhi * (b - a)).
  { intros a b Ha Hab Hb. rewrite num_diff.
    destruct (num_slope_bounds p q a b) as [H1 H2]; try lra.
    fold Nlo in H1. fold Nhi in H2.
    rewrite (Rmult_comm Nlo), (Rmult_comm Nhi).
    split; apply Rmult_le_compat_l; lra. }
  assert (HNlo : 0 <= Nlo) by (unfold Nlo; lra).
  assert (Hinc : forall a b, p <= a -> a <= b -> b <= q ->
            Closed.num a <= Closed.num b).
  { intros a b Ha Hab Hb. destruct (Hmono a b Ha Hab Hb) as [H1 _].
    assert (0 <= Nlo * (b - a)) by (apply Rmult_le_pos; lra). lra. }
  split; [unfold NL, Closed.num; apply Rmult_le_pos; lra |].
  split; [apply Hinc; lra |].
  split; [apply Hinc; lra |].
  split; [apply Hinc; lra |].
  apply Hmono; lra.
Qed.

Lemma piece_w_range x :
  p <= x <= q -> NL / DU <= Closed.w x <= NU / DL.
Proof.
  intros [H1 H2].
  destruct (piece_den x x) as (HDL & Hd1 & _ & Hd2 & _); try lra.
  destruct (piece_num x x) as (HNL & Hn1 & _ & Hn2 & _); try lra.
  unfold Closed.w. split; apply frac_le_compat; lra.
Qed.

Lemma piece_w_step x y :
  p <= x -> x <= y -> y <= q ->
  Nlo / DU * (y - x) <= Closed.w y - Closed.w x <=
  (Nhi / DL + NU * Gmax / (DL * DL)) * (y - x).
Proof.
  intros Hpx Hxy Hyq.
  destruct (piece_den x y) as (HDL & Hd1 & Hd2 & Hd3 & Hd4); try lra.
  destruct (piece_num x y) as (HNL & Hn1 & Hn2 & Hn3 & Hn4 & Hn5); try lra.
  assert (HNlo : 0 <= Nlo) by (unfold Nlo; lra).
  assert (HG : 0 <= Gmax * (y - x)) by lra.
  set (dx := Closed.den x) in *. set (dy := Closed.den y) in *.
  set (nx := Closed.num x) in *. set (ny := Closed.num y) in *.
  unfold Closed.w. fold dx dy nx ny.
  split.
  - assert (H1 : ny / dx <= ny / dy) by (apply frac_le_compat; lra).
    assert (H2 : Nlo * (y - x) / DU <= (ny - nx) / dx).
    { apply frac_le_compat; [| lra]. split; [| lra].
      apply Rmult_le_pos; lra. }
    replace (Nlo / DU * (y - x)) with (Nlo * (y - x) / DU)
      by (unfold Rdiv; ring).
    replace ((ny - nx) / dx) with (ny / dx - nx / dx) in H2
      by (unfold Rdiv; ring).
    lra.
  - replace (ny / dy - nx / dx)
      with ((ny - nx) / dy + nx * (dx - dy) / (dx * dy)) by (field; lra).
    assert (H1 : (ny - nx) / dy <= Nhi * (y - x) / DL).
    { apply frac_le_compat; lra. }
    assert (H2 : nx * (dx - dy) / (dx * dy) <=
                 NU * (Gmax * (y - x)) / (DL * DL)).
    { apply frac_le_compat.
      - split; [apply Rmult_le_pos; lra |].
        apply Rmult_le_compat; lra.
      - split; [apply Rmult_lt_0_compat; lra |].
        apply Rmult_le_compat; lra. }
    replace ((Nhi / DL + NU * Gmax / (DL * DL)) * (y - x))
      with (Nhi * (y - x) / DL + NU * (Gmax * (y - x)) / (DL * DL))
      by (unfold Rdiv; ring).
    lra.
Qed.

Variables lmin Lmax : R.
Hypothesis lmin_pos : 0 <= lmin.
Hypothesis Lmax_pos : 0 <= Lmax.
Hypothesis upper_ok :
  Nhi / DL + NU * Gmax / (DL * DL) <= Lmax * (1 + NL / DU * (NL / DU)).
Hypothesis lower_ok :
  lmin * (1 + NU / DL * (NU / DL)) <= Nlo / DU.

Lemma piece_atan_step x y :
  p <= x -> x <= y -> y <= q ->
  lmin * (y - x) <= atan (Closed.w y) - atan (Closed.w x) <= Lmax * (y - x).
Proof.
  intros Hpx Hxy Hyq.
  destruct (piece_w_step x y Hpx Hxy Hyq) as [Hw1 Hw2].
  destruct (piece_w_range x) as [Hx1 Hx2]; [lra |].
  destruct (piece_w_range y) as [Hy1 Hy2]; [lra |].
  destruct (piece_den x y) as (HDL & Hd1 & Hd2 & Hd3 & Hd4); try lra.
  destruct (piece_num x y) as (HNL & Hn1 & Hn2 & Hn3 & Hn4 & Hn5); try lra.
  assert (HNlo : 0 <= Nlo) by (unfold Nlo; lra).
  assert (HWL : 0 <= NL / DU) by (apply frac_nonneg; lra).
  assert (HlowW : 0 <= Nlo / DU * (y - x)).
  { apply Rmult_le_pos; [apply frac_nonneg; lra | lra]. }
  set (wx := Closed.w x) in *. set (wy := Closed.w y) in *.
  set (WL := NL / DU) in *. set (WU := NU / DL) in *.
  set (U := Nhi / DL + NU * Gmax / (DL * DL)) in *.
  set (E := Nlo / DU) in *.
  assert (Hwxy : 0 <= wx <= wy) by lra.
  split.
  - apply Rle_trans with ((wy - wx) * / (1 + wy * wy));
      [| apply atan_diff_lower; exact Hwxy].
    assert (Hden : 0 < 1 + wy * wy) by nra.
    assert (Hden' : 1 + wy * wy <= 1 + WU * WU) by nra.
    apply le_times_inv; [exact Hden |].
    apply Rle_trans with (E * (y - x)); [| lra].
    apply Rle_trans with (lmin * (1 + WU * WU) * (y - x)).
    + assert (0 <= lmin * (y - x)) by (apply Rmult_le_pos; lra).
      nra.
    + apply Rmult_le_compat_r; lra.
  - apply Rle_trans with ((wy - wx) * / (1 + wx * wx));
      [apply atan_diff_upper; exact Hwxy |].
    assert (Hden : 0 < 1 + wx * wx) by nra.
    assert (Hden' : 1 + WL * WL <= 1 + wx * wx) by nra.
    apply times_inv_le; [exact Hden |].
    apply Rle_trans with (U * (y - x)); [lra |].
    apply Rle_trans with (Lmax * (1 + WL * WL) * (y - x)).
    + apply Rmult_le_compat_r; lra.
    + assert (0 <= Lmax * (y - x)) by (apply Rmult_le_pos; lra).
      nra.
Qed.

End Piece.

Section Interval.

Ltac piece_side := unfold Closed.d, Closed.num; lra.

Lemma atan_step_low x y :
  66 / 100 <= x -> x <= y -> y <= 8 / 10 ->
  1 / 2 * (y - x) <= atan (Closed.w y) - atan (Closed.w x) <= 10 * (y - x).
Proof.
  apply (piece_atan_step (66 / 100) (8 / 10) (1198 / 1000) (1281 / 1000));
    try lra; piece_side.
Qed.

Lemma atan_step_mid x y :
  8 / 10 <= x -> x <= y -> y <= 9 / 10 ->
  1 / 2 * (y - x) <= atan (Closed.w y) - atan (Closed.w x) <= 10 * (y - x).
Proof.
  apply (piece_atan_step (8 / 10) (9 / 10) (128 / 100) (1346 / 1000));
    try lra; piece_side.
Qed.

Lemma atan_step_high x y :
  9 / 10 <= x -> x <= y -> y <= 1 ->
  1 / 2 * (y - x) <= atan (Closed.w y) - atan (Closed.w x) <= 10 * (y - x).
Proof.
  apply (piece_atan_step (9 / 10) 1 (1345 / 1000) (14143 / 10000));
    try lra; piece_side.
Qed.

End Interval.

(** ** Convergence of the solver *)

Section Iteration.

Lemma StepOn_glue a b c :
  a <= b -> b <= c ->
  Contraction.StepOn a b -> Contraction.StepOn b c -> Contraction.StepOn a c.
Proof.
  intros Hab Hbc H1 H2 x y Hx Hxy Hy.
  destruct (Rle_dec y b) as [Hyb | Hyb]; [apply H1; lra |].
  destruct (Rle_dec b x) as [Hbx | Hbx]; [apply H2; lra |].
  pose proof (H1 x b) as Ha. pose proof (H2 b y) as Hb.
  lra.
Qed.

Lemma atan_step x y :
  66 / 100 <= x -> x <= y -> y <= 1 ->
  1 / 2 * (y - x) <= atan (Closed.w y) - atan (Closed.w x) <= 10 * (y - x).
Proof.
  apply (StepOn_glue (66 / 100) (8 / 10) 1); try lra.
  - intros a b. apply atan_step_low.
  - apply (StepOn_glue (8 / 10) (9 / 10) 1); try lra.
    + intros a b. apply atan_step_mid.
    + intros a b. apply atan_step_high.
Qed.

Lemma ConstraintTest_on_interval x :
  66 / 100 <= x <= 1 -> ConstraintTest x = PI / 2 - atan (Closed.w x).
Proof.
  intros [H1 H2]. apply ConstraintTest_closed; [lra |].
  destruct (sq_between x 1 (3 / 2)) as [_ H]; try lra; nra.
Qed.

(** On [[0.66, 1]] the angle decreases, by at least [1 / 2] and at most [10]
    per unit of slope. *)
Lemma ConstraintTest_step x y :
  66 / 100 <= x -> x <= y -> y <= 1 ->
  1 / 2 * (y - x) <= ConstraintTest x - ConstraintTest y <= 10 * (y - x).
Proof.
  intros Hx Hxy Hy.
  rewrite (ConstraintTest_on_interval x), (ConstraintTest_on_interval y) by lra.
  pose proof (atan_step x y Hx Hxy Hy). lra.
Qed.

Lemma target_bounds : 5 / 6 < Machine.target <= 9 / 10.
Proof.
  unfold Machine.target. pose proof PI_upper. pose proof PI_lower. lra.
Qed.

Lemma sq_three_quarters : Closed.sq (3 / 4) = 5 / 4.
Proof.
  destruct (sq_between (3 / 4) (5 / 4) (5 / 4)) as [H1 H2]; lra.
Qed.

Lemma w_three_quarters : Closed.w (3 / 4) = 11 / 27.
Proof.
  unfold Closed.w, Closed.den, Closed.num, Closed.d.
  rewrite sq_three_quarters. lra.
Qed.

(** At the slope [3 / 4] the angle is still above the target. *)
Lemma errorAt_three_quarters : 0 <= Machine.errorAt (3 / 4).
Proof.
  unfold Machine.errorAt.
  rewrite ConstraintTest_on_interval by lra. rewrite w_three_quarters.
  pose proof (atan_le_id (11 / 27)). unfold Machine.target.
  pose proof PI_lower. lra.
Qed.

Lemma w_one : 1 < Closed.w 1.
Proof.
  destruct (sq_between 1 (14 / 10) (15 / 10)) as [H1 H2]; try lra.
  unfold Closed.w, Closed.den, Closed.num, Closed.d.
  set (s := Closed.sq 1) in *.
  assert (Hd : 0 < (2 - s) * (2 - s) * (s + 1)).
  { apply Rmult_lt_0_compat; [| lra]. apply Rmult_lt_0_compat; lra. }
  assert (Hd' : (2 - s) * (2 - s) * (s + 1) < 1 * (3 * (1 * 1) - 1)) by nra.
  set (D := (2 - s) * (2 - s) * (s + 1)) in *.
  assert (Hi : / D * D = 1) by (apply Rinv_l; lra).
  assert (HiD : 0 < / D) by (apply Rinv_0_lt_compat; exact Hd).
  unfold Rdiv. nra.
Qed.

(** At the initial guess the angle is below the target. *)
Lemma errorAt_one : Machine.errorAt 1 <= 0.
Proof.
  unfold Machine.errorAt.
  rewrite ConstraintTest_on_interval by lra.
  pose proof (atan_increasing 1 (Closed.w 1) w_one) as H.
  rewrite atan_1 in H. unfold Machine.target. pose proof PI_lower. lra.
Qed.

Lemma errorAt_lower m : - (9 / 10) <= Machine.errorAt m.
Proof.
  unfold Machine.errorAt, ConstraintTest, vec2Angle; cbv zeta.
  match goal with |- _ <= acos ?u - _ => pose proof (acos_bound u) end.
  pose proof target_bounds. lra.
Qed.

Lemma Inv_start : Contraction.Inv 0 1.
Proof.
  split; [lra |]. split.
  - pose proof (errorAt_lower 1). simpl. lra.
  - apply errorAt_one.
Qed.

(** An update that does not meet the threshold keeps the invariant: the new
    error is the old one times a factor between [0] and [19 / 20]. *)
Lemma Inv_step k m :
  Contraction.Inv k m -> ~ Rabs (Machine.errorAt m) <= 1 / 10 ^ 10 ->
  Contraction.Inv (S k) (m + Machine.errorAt m * (1 / 10)).
Proof.
  intros [[Hm1 Hm2] [He1 He2]] Hbig.
  pose proof (errorAt_lower m) as Hlow.
  set (e := Machine.errorAt m) in *.
  assert (He : e < 0).
  { destruct He2 as [He2 | He2]; [exact He2 |].
    exfalso. apply Hbig. rewrite He2, Rabs_R0.
    apply Rlt_le, Rdiv_lt_0_compat; [lra | apply pow_lt; lra]. }
  set (m' := m + e * (1 / 10)).
  assert (Hm' : 66 / 100 <= m' < m) by (unfold m'; lra).
  pose proof (ConstraintTest_step m' m) as Hstep.
  assert (He' : 19 / 20 * e <= Machine.errorAt m' <= 0).
  { unfold Machine.errorAt. fold e in Hstep.
    assert (Hdiff : m - m' = - e * (1 / 10)) by (unfold m'; lra).
    destruct Hstep as [Hs1 Hs2]; try lra.
    rewrite Hdiff in Hs1, Hs2.
    assert (ConstraintTest m = e + Machine.target)
      by (unfold e, Machine.errorAt; lra).
    lra. }
  split; [| split].
  - split; [| lra].
    destruct (Rle_dec (3 / 4) m') as [H | H]; [exact H |].
    exfalso.
    pose proof (ConstraintTest_step m' (3 / 4)) as Hc.
    pose proof errorAt_three_quarters as H34.
    unfold Machine.errorAt in H34, He'. lra.
  - assert (Hp : 0 <= (19 / 20) ^ k) by (apply pow_le; lra).
    simpl pow. nra.
  - lra.
Qed.

(** With [n + 1] iterations left and the invariant at stage [k], the loop
    breaks on the threshold as soon as [(19 / 20) ^ (k + n)] is small
    enough. *)
Lemma loop_converges n : forall k m e0,
  Contraction.Inv k m -> (19 / 20) ^ (k + n) * (9 / 10) <= 1 / 10 ^ 10 ->
  exists mf i',
    Solver.loop (S n) m e0 =
      Solver.mkstate mf (Some (Machine.errorAt mf)) (S i') /\
    Rabs (Machine.errorAt mf) <= 1 / 10 ^ 10 /\ (i' <= n)%nat.
Proof.
  induction n as [| n IH]; intros k m e0 HI Hpow.
  - assert (Hsmall : Rabs (Machine.errorAt m) <= 1 / 10 ^ 10).
    { destruct HI as [_ [He1 He2]]. rewrite Nat.add_0_r in Hpow.
      rewrite Rabs_left1 by exact He2. lra. }
    exists m, 0%nat.
    rewrite (loop_converged _ _ _ Hsmall). repeat split; [exact Hsmall | lia].
  - destruct (Rle_dec (Rabs (Machine.errorAt m)) (1 / 10 ^ 10))
      as [Hsmall | Hbig].
    + exists m, (S n).
      rewrite (loop_converged _ _ _ Hsmall).
      repeat split; [exact Hsmall | lia].
    + rewrite (loop_update _ _ _ Hbig).
      destruct (IH (S k) _ (Some (Machine.errorAt m)) (Inv_step k m HI Hbig))
        as (mf & i' & Heq & Hef & Hi).
      { replace (S k + n)%nat with (k + S n)%nat by lia. exact Hpow. }
      exists mf, i'. repeat split; [exact Heq | exact Hef | lia].
Qed.

Lemma contraction_reaches_threshold :
  (19 / 20) ^ 999 * (9 / 10) <= 1 / 10 ^ 10.
Proof.
  assert (H45 : (19 / 20) ^ 45 <= 1 / 10) by lra.
  assert (H0 : 0 <= (19 / 20) ^ 45) by (apply pow_le; lra).
  assert (H990 : ((19 / 20) ^ 45) ^ 22 <= (1 / 10) ^ 22)
    by (apply pow_incr; lra).
  rewrite <- pow_mult in H990.
  replace 999%nat with (45 * 22 + 9)%nat by reflexivity.
  rewrite pow_add.
  assert (H9 : 0 <= (19 / 20) ^ 9 <= 1).
  { split; [apply pow_le; lra |].
    rewrite <- (pow1 9). apply pow_incr; lra. }
  assert (Hp : 0 <= (19 / 20) ^ (45 * 22)) by (apply pow_le; lra).
  assert (Ht : (1 / 10) ^ 22 <= 1 / 10 ^ 10) by lra.
  nra.
Qed.

End Iteration.

(** C3. From the initial guess [m = 1.0], with the cap of 1000 iterations and
    the target of 50 degrees, the loop of [main] leaves through the
    convergence test: it stops with [|error| <= 1e-10] while the counter is
    still positive, so the iteration count it reports, 1000 minus the
    counter, is less than 1000. *)
Theorem solver_converges_before_cap :
  exists (mf ef : R) (n : nat),
    Solver.solved = Solver.mkstate mf (Some ef) (S n) /\
    ef = ConstraintTest mf - FIFTY_DEGREES_AS_RADIANS /\
    Rabs ef <= CONSTRAINT_ERROR_THRESHOLD /\
    (Solver.total_iterations Solver.main < 1000)%nat.
Proof.
  destruct (loop_converges 999 0 1 None Inv_start contraction_reaches_threshold)
    as (mf & n & Heq & Hef & Hn).
  assert (Hsolved : Solver.solved =
                    Solver.mkstate mf (Some (Machine.errorAt mf)) (S n)).
  { unfold Solver.solved, CONSTRAINT_SLOPE_INITIAL_GUESS.
    rewrite lit_1_0. exact Heq. }
  exists mf, (Machine.errorAt mf), n.
  split; [exact Hsolved | split; [reflexivity | split]].
  - rewrite threshold_spec. exact Hef.
  - unfold Solver.main. cbn [Solver.total_iterations].
    rewrite Hsolved. cbn [Solver.i].
    change CONSTRAINT_SOLVER_MAX_ITERATIONS with (S 999). lia.
Qed.

(** ** More on the vector primitives *)

Section VectorGeometry.

Implicit Types a b c v w : vec2.

Lemma vec2Dot_comm v w : vec2Dot v w = vec2Dot w v.
Proof. unfold vec2Dot. ring. Qed.

End VectorGeometry.

(** X1. [vec2Angle] does not depend on the order of its two outer points. *)
Theorem vec2Angle_symmetric (a b c : vec2) :
  vec2Angle a b c = vec2Angle c b a.
Proof.
  unfold vec2Angle; cbv zeta.
  rewrite (vec2Dot_comm (vec2Subtract b a)).
  rewrite (Rmult_comm (vec2Magnitude (vec2Subtract b a))).
  reflexivity.
Qed.

(** ** The mirror image of the construction *)

Section Mirror.

Variable m : R.

Lemma msqrt_neg : sqrt (- m * - m + 1.0) = sqrt (m * m + 1.0).
Proof. f_equal. ring. Qed.

Lemma K_neg : CT.K (- m) = Geometry.reflect (CT.K m).
Proof.
  unfold CT.K, Geometry.reflect. rewrite msqrt_neg.
  apply vec2_eq; cbn [x y]; [reflexivity | unfold Rdiv; ring].
Qed.

Lemma slopeK_neg : CT.slopeK (- m) = - CT.slopeK m.
Proof.
  unfold CT.slopeK, CT.msqrt. rewrite msqrt_neg.
  unfold Rdiv. rewrite Rinv_opp. ring.
Qed.

Lemma A_neg : CT.A (- m) = Geometry.reflect (CT.A m).
Proof.
  unfold CT.A, Geometry.reflect. rewrite slopeK_neg.
  apply vec2_eq; cbn [x y]; [reflexivity | ring].
Qed.

Lemma reflect_radicand v :
  vec2MagnitudeRadicand (Geometry.reflect v) = vec2MagnitudeRadicand v.
Proof. unfold vec2MagnitudeRadicand, Geometry.reflect; simpl. ring. Qed.

Lemma magnitudeA_neg : CT.magnitudeA (- m) = CT.magnitudeA m.
Proof.
  unfold CT.magnitudeA, vec2Magnitude. rewrite A_neg, reflect_radicand.
  reflexivity.
Qed.

Lemma j_neg : CT.j (- m) = CT.j m.
Proof. unfold CT.j, CT.jRadicand. rewrite K_neg. reflexivity. Qed.

Lemma i_neg : CT.i (- m) = CT.i m.
Proof. unfold CT.i. rewrite magnitudeA_neg, j_neg. reflexivity. Qed.

Lemma L_neg : CT.L (- m) = Geometry.reflect (CT.L m).
Proof.
  unfold CT.L. rewrite i_neg, magnitudeA_neg, A_neg.
  unfold Geometry.reflect. apply vec2_eq; cbn [x y]; [reflexivity |].
  unfold Rdiv. ring.
Qed.

Lemma B_reflect : Geometry.reflect CT.B = CT.B.
Proof.
  unfold Geometry.reflect, CT.B. apply vec2_eq; cbn [x y]; lra.
Qed.

Lemma vec2Angle_reflect a b c :
  vec2Angle (Geometry.reflect a) (Geometry.reflect b) (Geometry.reflect c) =
  vec2Angle a b c.
Proof.
  unfold vec2Angle, vec2Magnitude; cbv zeta. f_equal. f_equal.
  - unfold vec2Dot, vec2Subtract, Geometry.reflect; simpl. ring.
  - f_equal; f_equal;
      unfold vec2MagnitudeRadicand, vec2Subtract, Geometry.reflect; simpl; ring.
Qed.

End Mirror.

(** X11. [ConstraintTest] is an even function of the slope: the
    construction for [- m] is the mirror image of the one for [m]. *)
Theorem ConstraintTest_even (m : R) :
  ConstraintTest (- m) = ConstraintTest m.
Proof.
  unfold ConstraintTest.
  rewrite K_neg, L_neg. rewrite <- B_reflect at 1.
  apply vec2Angle_reflect.
Qed.

(** ** [alpha] is the angle of the slope *)

Section AlphaAngle.

Variable m : R.

Let phi := atan (Rabs m).
Let s := sqrt (m * m + 1.0).

Lemma phi_range : 0 <= phi < PI / 2.
Proof.
  unfold phi. split; [| apply atan_bound].
  destruct (Rabs_pos m) as [H | H].
  - apply Rlt_le. rewrite <- atan_0. apply atan_increasing. exact H.
  - rewrite <- H, atan_0. lra.
Qed.

Lemma cos_phi : cos phi = / s.
Proof.
  unfold phi, s. rewrite cos_atan. literals.
  replace (1 + (Rabs m)²) with (m * m + 1).
  - unfold Rdiv. ring.
  - unfold Rsqr, Rabs. destruct (Rcase_abs m); ring.
Qed.

Lemma sin_half_phi : sin (phi / 2) = Alpha.j m * 0.5.
Proof.
  pose proof phi_range as [Hp0 Hp1]. pose proof PI_RGT_0 as Hpi.
  assert (Hs : 0 <= sin (phi / 2)) by (apply sin_ge_0; lra).
  assert (Hj : 0 <= Alpha.j m) by apply sqrt_pos.
  assert (Hj2 : Alpha.j m * Alpha.j m = 2 - 2 * / s).
  { unfold Alpha.j. rewrite sqrt_sqrt.
    - unfold Alpha.jRadicand. fold s. literals. unfold Rdiv. ring.
    - rewrite jRadicand_agree. unfold CT.jRadicand.
      pose proof (K_x_nonneg m). lra. }
  assert (Hc : cos phi = 1 - 2 * sin (phi / 2) * sin (phi / 2)).
  { rewrite <- cos_2a_sin. f_equal. field. }
  rewrite cos_phi in Hc. literals.
  set (t := sin (phi / 2)) in *. set (j := Alpha.j m) in *.
  assert (Hsq : t * t = (j * / 2) * (j * / 2)) by nra.
  assert (Hj' : 0 <= j * / 2) by lra.
  nra.
Qed.

Lemma acos_half_j : acos (Alpha.j m * 0.5) = PI / 2 - phi / 2.
Proof.
  pose proof phi_range as [Hp0 Hp1]. pose proof PI_RGT_0 as Hpi.
  rewrite <- sin_half_phi, <- cos_shift. apply acos_cos. lra.
Qed.

Lemma alpha_closed : alpha m = 180 / PI * phi.
Proof.
  unfold alpha, Alpha.angleBCK, RADIANS_TO_DEGREES, M_PI.
  rewrite acos_half_j. literals. field. apply PI_neq0.
Qed.

End AlphaAngle.

(** ** The root of the constraint *)

Section Root.

Lemma id_le_tan a : 0 <= a < PI / 2 -> a <= tan a.
Proof.
  intros [H0 H1].
  assert (Ht : 0 <= tan a).
  { destruct H0 as [H0 | <-]; [| rewrite tan_0; lra].
    apply Rlt_le, tan_gt_0; lra. }
  pose proof (atan_le_id (tan a) Ht) as H.
  rewrite atan_tan in H by lra. exact H.
Qed.

Lemma root_range : 66 / 100 < Geometry.root < 1.
Proof.
  pose proof PI_lower as Hl. pose proof PI_upper as Hu.
  unfold Geometry.root. split.
  - pose proof (id_le_tan (2 * PI / 9)). lra.
  - rewrite <- tan_PI4. apply tan_increasing; lra.
Qed.

Lemma atan_root : atan Geometry.root = 2 * PI / 9.
Proof.
  pose proof PI_RGT_0. unfold Geometry.root. apply atan_tan. lra.
Qed.

Lemma cos_triple a :
  cos (3 * a) = 4 * (cos a * cos a * cos a) - 3 * cos a.
Proof.
  replace (3 * a) with (2 * a + a) by ring.
  rewrite cos_plus, cos_2a_cos, sin_2a.
  pose proof (sin2 a) as H. unfold Rsqr in H.
  replace (2 * sin a * cos a * sin a) with (2 * cos a * (sin a * sin a))
    by ring.
  rewrite H. ring.
Qed.

(** With [s = sqrt (root^2 + 1) = 1 / cos 40], the triple angle formula at
    40 degrees reads [s^3 - 6 s^2 + 8 = 0]. *)
Lemma root_cubic :
  let s := Closed.sq Geometry.root in
  s * s * s - 6 * (s * s) + 8 = 0.
Proof.
  intros s.
  pose proof (sq_ge_1 Geometry.root) as Hs1. fold s in Hs1.
  assert (Hc : cos (2 * PI / 9) = / s).
  { rewrite <- atan_root, cos_atan. unfold s, Closed.sq, Rsqr.
    rewrite (Rplus_comm 1). unfold Rdiv. ring. }
  pose proof (cos_triple (2 * PI / 9)) as H3.
  replace (3 * (2 * PI / 9)) with (2 * (PI / 3)) in H3 by field.
  rewrite cos_2PI3, Hc in H3.
  assert (Hi : / s * s = 1) by (apply Rinv_l; lra).
  assert (H8 : 8 * (/ s * / s * / s) - 6 * / s + 1 = 0) by lra.
  assert (Hm : (8 * (/ s * / s * / s) - 6 * / s + 1) * (s * s * s) =
               8 * ((/ s * s) * (/ s * s) * (/ s * s)) -
               6 * (/ s * s) * (s * s) + s * s * s) by ring.
  rewrite H8, Hi in Hm. lra.
Qed.

Lemma w_root : Closed.w Geometry.root = Geometry.root.
Proof.
  pose proof root_cubic as Hc. cbv zeta in Hc.
  pose proof (sq_sqr Geometry.root) as Hs.
  pose proof (sq_ge_1 Geometry.root) as Hs1.
  pose proof root_range as [Hr0 Hr1].
  unfold Closed.w, Closed.num, Closed.den, Closed.d.
  set (s := Closed.sq Geometry.root) in *. set (r := Geometry.root) in *.
  assert (Hd : (2 - s) * (2 - s) * (s + 1) = 3 * (r * r) - 1) by nra.
  rewrite Hd. field. nra.
Qed.

Lemma ConstraintTest_at_root :
  ConstraintTest Geometry.root = FIFTY_DEGREES_AS_RADIANS.
Proof.
  pose proof root_range as [Hr0 Hr1].
  rewrite ConstraintTest_on_interval by lra.
  rewrite w_root, atan_root.
  unfold FIFTY_DEGREES_AS_RADIANS, M_PI. field.
Qed.

End Root.

(** ** How the loop of [main] ends *)

Section LoopExit.

Lemma loop_counter n : forall m e, (Solver.i (Solver.loop n m e) <= n)%nat.
Proof.
  induction n as [| n IH]; intros m e; [simpl; lia |].
  destruct (Rle_dec (Rabs (Machine.errorAt m)) (1 / 10 ^ 10)) as [Hy | Hn].
  - rewrite (loop_converged _ _ _ Hy). simpl. lia.
  - rewrite (loop_update _ _ _ Hn).
    specialize (IH (m + Machine.errorAt m * (1 / 10))
                   (Some (Machine.errorAt m))).
    lia.
Qed.

Lemma loop_break n : forall m e,
  (0 < Solver.i (Solver.loop n m e))%nat ->
  Solver.error (Solver.loop n m e) =
    Some (Machine.errorAt (Solver.m (Solver.loop n m e))) /\
  Rabs (Machine.errorAt (Solver.m (Solver.loop n m e))) <= 1 / 10 ^ 10.
Proof.
  induction n as [| n IH]; intros m e; [simpl; lia |].
  destruct (Rle_dec (Rabs (Machine.errorAt m)) (1 / 10 ^ 10)) as [Hy | Hn].
  - rewrite (loop_converged _ _ _ Hy). simpl. intros _.
    split; [reflexivity | exact Hy].
  - rewrite (loop_update _ _ _ Hn). apply IH.
Qed.

Lemma loop_exhaust n : forall m e,
  Solver.i (Solver.loop (S n) m e) = 0%nat ->
  exists mp,
    ~ Rabs (Machine.errorAt mp) <= 1 / 10 ^ 10 /\
    Solver.error (Solver.loop (S n) m e) = Some (Machine.errorAt mp) /\
    Solver.m (Solver.loop (S n) m e) = mp + Machine.errorAt mp * (1 / 10).
Proof.
  induction n as [| n IH]; intros m e.
  - destruct (Rle_dec (Rabs (Machine.errorAt m)) (1 / 10 ^ 10)) as [Hy | Hn].
    + rewrite (loop_converged _ _ _ Hy). simpl. discriminate.
    + rewrite (loop_update _ _ _ Hn). simpl. intros _.
      exists m. repeat split; assumption.
  - destruct (Rle_dec (Rabs (Machine.errorAt m)) (1 / 10 ^ 10)) as [Hy | Hn].
    + rewrite (loop_converged _ _ _ Hy). simpl. discriminate.
    + rewrite (loop_update (S n) _ _ Hn). apply IH.
Qed.

Lemma loop_add a : forall b m e,
  Solver.loop (a + b) m e =
  match Solver.i (Solver.loop a m e) with
  | O => Solver.loop b (Solver.m (Solver.loop a m e))
                       (Solver.error (Solver.loop a m e))
  | S k => Solver.mkstate (Solver.m (Solver.loop a m e))
                          (Solver.error (Solver.loop a m e)) (S k + b)
  end.
Proof.
  induction a as [| a IH]; intros b m e; [reflexivity |].
  change (S a + b)%nat with (S (a + b)).
  destruct (Rle_dec (Rabs (Machine.errorAt m)) (1 / 10 ^ 10)) as [Hy | Hn].
  - rewrite (loop_converged (a + b) _ _ Hy), (loop_converged a _ _ Hy).
    reflexivity.
  - rewrite (loop_update (a + b) _ _ Hn), (loop_update a _ _ Hn).
    apply IH.
Qed.

End LoopExit.

(** X16. However the loop is started, it leaves in one of two ways.  With
    the counter still positive, the recorded [error] is the error of the
    final slope and is within the threshold.  With the counter at zero after
    at least one iteration, the recorded [error] is above the threshold and
    belongs to the slope before the last update: the final slope is that
    slope plus [error * 0.1], for which no error was computed.  The counter
    never exceeds its initial value. *)
Theorem loop_exit (n : nat) (m : R) (e : option R) :
  let st := Solver.loop n m e in
  (Solver.i st <= n)%nat /\
  ((0 < Solver.i st)%nat ->
     Solver.error st =
       Some (ConstraintTest (Solver.m st) - FIFTY_DEGREES_AS_RADIANS) /\
     Rabs (ConstraintTest (Solver.m st) - FIFTY_DEGREES_AS_RADIANS) <=
       CONSTRAINT_ERROR_THRESHOLD) /\
  ((0 < n)%nat -> Solver.i st = 0%nat ->
     exists mp : R,
       ~ Rabs (ConstraintTest mp - FIFTY_DEGREES_AS_RADIANS) <=
           CONSTRAINT_ERROR_THRESHOLD /\
       Solver.error st =
         Some (ConstraintTest mp - FIFTY_DEGREES_AS_RADIANS) /\
       Solver.m st =
         mp + (ConstraintTest mp - FIFTY_DEGREES_AS_RADIANS) *
              CONSTRAINT_ERROR_TRANSFER_RATIO).
Proof.
  intros st. unfold st. rewrite threshold_spec, ratio_spec.
  split; [apply loop_counter | split].
  - intros H. destruct (loop_break n m e H) as [H1 H2]. split; assumption.
  - intros Hn H0. destruct n as [| n]; [lia |].
    destruct (loop_exhaust n m e H0) as (mp & H1 & H2 & H3).
    exists mp. repeat split; assumption.
Qed.

(** X17. Raising the cap from [a] to [a + b] iterations: a run that broke
    on the threshold under the cap [a] ends with the same slope and error,
    its counter [b] higher, so it reports the same number of iterations; a
    run that exhausted the cap [a] goes on from where it stopped for [b]
    more iterations. *)
Theorem loop_raise_cap (a b : nat) (m : R) (e : option R) :
  let st := Solver.loop a m e in
  ((0 < Solver.i st)%nat ->
     Solver.loop (a + b) m e =
       Solver.mkstate (Solver.m st) (Solver.error st) (Solver.i st + b) /\
     (a + b - Solver.i (Solver.loop (a + b) m e) = a - Solver.i st)%nat) /\
  (Solver.i st = 0%nat ->
     Solver.loop (a + b) m e = Solver.loop b (Solver.m st) (Solver.error st)).
Proof.
  intros st. unfold st. pose proof (loop_add a b m e) as H.
  pose proof (loop_counter a m e) as Hc.
  destruct (Solver.i (Solver.loop a m e)) as [| k] eqn:Hi.
  - split; [intros Hk; lia | intros _; exact H].
  - split; [| discriminate].
    intros _. split; [exact H |]. rewrite H. simpl. lia.
Qed.

(** ** What [main] reports *)

Section Report.

Lemma loop_converges_inv n : forall k m e0,
  Contraction.Inv k m -> (19 / 20) ^ (k + n) * (9 / 10) <= 1 / 10 ^ 10 ->
  exists mf i',
    Solver.loop (S n) m e0 =
      Solver.mkstate mf (Some (Machine.errorAt mf)) (S i') /\
    Rabs (Machine.errorAt mf) <= 1 / 10 ^ 10 /\
    3 / 4 <= mf <= 1 /\ Machine.errorAt mf <= 0.
Proof.
  induction n as [| n IH]; intros k m e0 HI Hpow.
  - assert (Hsmall : Rabs (Machine.errorAt m) <= 1 / 10 ^ 10).
    { destruct HI as [_ [He1 He2]]. rewrite Nat.add_0_r in Hpow.
      rewrite Rabs_left1 by exact He2. lra. }
    exists m, 0%nat. rewrite (loop_converged _ _ _ Hsmall).
    destruct HI as [Hm [_ He]]. repeat split; try assumption; apply Hm.
  - destruct (Rle_dec (Rabs (Machine.errorAt m)) (1 / 10 ^ 10))
      as [Hsmall | Hbig].
    + exists m, (S n). rewrite (loop_converged _ _ _ Hsmall).
      destruct HI as [Hm [_ He]]. repeat split; try assumption; apply Hm.
    + rewrite (loop_update _ _ _ Hbig).
      apply (IH (S k) _ _ (Inv_step k m HI Hbig)).
      replace (S k + n)%nat with (k + S n)%nat by lia. exact Hpow.
Qed.

Lemma solved_slope :
  exists mf n,
    Solver.solved = Solver.mkstate mf (Some (Machine.errorAt mf)) (S n) /\
    - (1 / 10 ^ 10) <= Machine.errorAt mf <= 0 /\
    Geometry.root <= mf <= Geometry.root + 2 / 10 ^ 10.
Proof.
  destruct (loop_converges_inv 999 0 1 None Inv_start
              contraction_reaches_threshold)
    as (mf & n & Heq & Hsmall & [Hm0 Hm1] & Hneg).
  exists mf, n. split.
  { unfold Solver.solved, CONSTRAINT_SLOPE_INITIAL_GUESS.
    rewrite lit_1_0. exact Heq. }
  rewrite Rabs_left1 in Hsmall by exact Hneg.
  split; [lra |].
  pose proof root_range as [Hr0 Hr1].
  pose proof ConstraintTest_at_root as Hroot.
  unfold Machine.errorAt in Hsmall, Hneg.
  change Machine.target with FIFTY_DEGREES_AS_RADIANS in Hsmall, Hneg.
  assert (Hge : Geometry.root <= mf).
  { destruct (Rle_dec Geometry.root mf) as [H | H]; [exact H | exfalso].
    pose proof (ConstraintTest_step mf Geometry.root). lra. }
  split; [exact Hge |].
  pose proof (ConstraintTest_step Geometry.root mf). lra.
Qed.

End Report.

(** X18. What [main] prints: fewer than 1000 iterations; a slope that is
    at least [tan (40 degrees)] and exceeds it by at most [2e-10]; an error
    between [-1e-10] and [0]; and an [alpha] that is at least 40 degrees and
    exceeds it by at most [2e-8]. *)
Theorem main_reports_40_degrees :
  (Solver.total_iterations Solver.main < 1000)%nat /\
  Geometry.root <= Solver.slope_BK Solver.main <=
    Geometry.root + 2 / 10 ^ 10 /\
  (exists err, Solver.angle_BKL_error Solver.main = Some err /\
               - (1 / 10 ^ 10) <= err <= 0) /\
  40 <= Solver.alpha_degrees Solver.main <= 40 + 2 / 10 ^ 8.
Proof.
  destruct solved_slope as (mf & n & Heq & Herr & [Hm0 Hm1]).
  unfold Solver.main; cbn [Solver.total_iterations Solver.slope_BK
                           Solver.angle_BKL_error Solver.alpha_degrees].
  rewrite Heq; cbn [Solver.i Solver.m Solver.error].
  pose proof root_range as [Hr0 Hr1].
  split; [| split; [| split]].
  - change CONSTRAINT_SOLVER_MAX_ITERATIONS with (S 999). lia.
  - split; assumption.
  - exists (Machine.errorAt mf). split; [reflexivity | exact Herr].
  - rewrite alpha_closed. rewrite Rabs_right by lra.
    pose proof (atan_diff_upper Geometry.root mf) as Hup.
    pose proof (atan_diff_lower Geometry.root mf) as Hlo.
    rewrite atan_root in Hup, Hlo.
    assert (Hu : atan mf - 2 * PI / 9 <= mf - Geometry.root).
    { apply Rle_trans with
        ((mf - Geometry.root) * / (1 + Geometry.root * Geometry.root));
        [apply Hup; lra |].
      rewrite <- (Rmult_1_r (mf - Geometry.root)) at 2.
      apply Rmult_le_compat_l; [lra |].
      rewrite <- Rinv_1. apply Rinv_le_contravar; nra. }
    assert (Hl : 0 <= atan mf - 2 * PI / 9).
    { apply Rle_trans with
        ((mf - Geometry.root) * / (1 + mf * mf)); [| apply Hlo; lra].
      apply Rmult_le_pos; [lra |].
      apply Rlt_le, Rinv_0_lt_compat. nra. }
    pose proof PI_lower as Hpi.
    assert (Hinv : 0 < / PI <= / 3).
    { split; [apply Rinv_0_lt_compat; lra |].
      apply Rinv_le_contravar; lra. }
    assert (H40 : 180 / PI * (2 * PI / 9) = 40) by (field; lra).
    replace (180 / PI * atan mf)
      with (40 + 180 * / PI * (atan mf - 2 * PI / 9))
      by (rewrite <- H40; unfold Rdiv; ring).
    assert (Hd : atan mf - 2 * PI / 9 <= 2 / 10 ^ 10) by lra.
    assert (Hk : 0 <= 180 * / PI <= 60) by lra.
    assert (Hprod : 0 <= 180 * / PI * (atan mf - 2 * PI / 9) <=
                    60 * (2 / 10 ^ 10)).
    { split; [apply Rmult_le_pos; lra |].
      apply Rmult_le_compat; lra. }
    lra.
Qed.

(** ** Degenerate arguments in the IEEE reading *)

Section DegenerateFloats.

Import LongDouble.

Variable fmt : format.
Variable acosl : spec_float -> spec_float.
Hypothesis acosl_nan : acosl S754_nan = S754_nan.

Ltac float_classes :=
  repeat match goal with
  | H : _ \/ _ |- _ => destruct H as [H | H]
  end;
  subst;
  repeat match goal with
  | H : Float754.is_zero ?r = true |- _ =>
      destruct r as [[|] | [|] | | [|] ? ?]; try discriminate H; clear H
  end.

Lemma sub_self r :
  sub fmt r r = S754_zero false \/ sub fmt r r = S754_nan.
Proof.
  unfold sub. destruct r as [[|] | [|] | | s m e]; simpl; auto.
  left.
  set (t := cond_Zopp s (Z.pos (fst (shl_align m e (Z.min e e))))).
  replace (Z.sub t t) with 0%Z by (symmetry; apply Z.sub_diag).
  reflexivity.
Qed.

Lemma mul_zero_l r r' :
  Float754.is_zero r = true \/ r = S754_nan ->
  Float754.is_zero (mul fmt r r') = true \/ mul fmt r r' = S754_nan.
Proof.
  intros H. unfold mul. float_classes; destruct r'; simpl; auto.
Qed.

Lemma mul_zero_r r r' :
  Float754.is_zero r' = true \/ r' = S754_nan ->
  Float754.is_zero (mul fmt r r') = true \/ mul fmt r r' = S754_nan.
Proof.
  intros H. unfold mul. float_classes; destruct r; simpl; auto.
Qed.

Lemma add_zero_or_nan r r' :
  Float754.is_zero r = true \/ r = S754_nan ->
  Float754.is_zero r' = true \/ r' = S754_nan ->
  Float754.is_zero (add fmt r r') = true \/ add fmt r r' = S754_nan.
Proof.
  intros H H'. unfold add. float_classes; simpl; auto.
Qed.

Lemma sqrtl_zero r :
  Float754.is_zero r = true \/ r = S754_nan ->
  Float754.is_zero (sqrtl fmt r) = true \/ sqrtl fmt r = S754_nan.
Proof.
  intros H. unfold sqrtl. float_classes; simpl; auto.
Qed.

Lemma div_zero_zero r r' :
  Float754.is_zero r = true \/ r = S754_nan ->
  Float754.is_zero r' = true \/ r' = S754_nan ->
  div fmt r r' = S754_nan.
Proof.
  intros H H'. unfold div. float_classes; reflexivity.
Qed.

Lemma sub_self_class r :
  Float754.is_zero (sub fmt r r) = true \/ sub fmt r r = S754_nan.
Proof. destruct (sub_self r) as [-> | ->]; auto. Qed.

(** The angle at a vertex that coincides with the first point. *)
Lemma vec2Angle_coincident_first a c :
  vec2Angle fmt acosl a a c = S754_nan.
Proof.
  unfold vec2Angle; cbv zeta.
  set (cb := vec2Subtract fmt a c).
  assert (Hx := sub_self_class (x a)). assert (Hy := sub_self_class (y a)).
  unfold vec2Subtract at 1 2. unfold vec2Dot, vec2Magnitude. cbn [x y].
  rewrite div_zero_zero; [exact acosl_nan | |].
  - apply add_zero_or_nan; apply mul_zero_l; assumption.
  - apply mul_zero_l, sqrtl_zero.
    apply add_zero_or_nan; apply mul_zero_l; assumption.
Qed.

(** The angle at a vertex that coincides with the last point. *)
Lemma vec2Angle_coincident_last a c :
  vec2Angle fmt acosl a c c = S754_nan.
Proof.
  unfold vec2Angle; cbv zeta.
  set (ab := vec2Subtract fmt c a).
  assert (Hx := sub_self_class (x c)). assert (Hy := sub_self_class (y c)).
  unfold vec2Subtract. unfold vec2Dot, vec2Magnitude. cbn [x y].
  rewrite div_zero_zero; [exact acosl_nan | |].
  - apply add_zero_or_nan; apply mul_zero_r; assumption.
  - apply mul_zero_r, sqrtl_zero.
    apply add_zero_or_nan; apply mul_zero_l; assumption.
Qed.

(** An angle at a vertex without an ordinate. *)
Lemma vec2Angle_vertex_nan b k l :
  y k = S754_nan -> vec2Angle fmt acosl b k l = S754_nan.
Proof.
  intros Hk. unfold vec2Angle; cbv zeta.
  unfold vec2Dot, vec2Subtract; cbn [x y]. rewrite Hk.
  unfold sub, mul, add, div; simpl.
  match goal with
  | |- acosl (SFdiv _ _ (SFadd _ _ ?u S754_nan) _) = _ =>
      replace (SFadd (prec fmt) (emax fmt) u S754_nan) with S754_nan
        by (destruct u; reflexivity)
  end.
  simpl. exact acosl_nan.
Qed.

End DegenerateFloats.

Section NonFiniteSlope.

Import LongDouble.

Lemma K_y_nan fmt : y (K fmt S754_nan) = S754_nan.
Proof. reflexivity. Qed.

Lemma K_y_infinity_x87 sign :
  y (K x87_extended (S754_infinity sign)) = S754_nan.
Proof. destruct sign; vm_compute; reflexivity. Qed.

Lemma K_y_infinity_binary64 sign :
  y (K binary64 (S754_infinity sign)) = S754_nan.
Proof. destruct sign; vm_compute; reflexivity. Qed.

Lemma K_y_infinity_binary128 sign :
  y (K binary128 (S754_infinity sign)) = S754_nan.
Proof. destruct sign; vm_compute; reflexivity. Qed.

End NonFiniteSlope.

(** X19. In the IEEE reading, for every format and all points, [vec2Angle]
    returns NaN when the vertex coincides with one of the two other points:
    the quotient handed to [acosl] is then 0/0 (or already NaN). *)
Theorem vec2Angle_coincident_is_nan
    (fmt : LongDouble.format) (acosl : spec_float -> spec_float)
    (a c : LongDouble.vec2) :
  acosl S754_nan = S754_nan ->
  LongDouble.vec2Angle fmt acosl a a c = S754_nan /\
  LongDouble.vec2Angle fmt acosl a c c = S754_nan.
Proof.
  intros Hacos. split.
  - apply vec2Angle_coincident_first, Hacos.
  - apply vec2Angle_coincident_last, Hacos.
Qed.

Lemma vec2Angle_coincident_is_nan_witness :
  let acosl := fun r : spec_float =>
    match r with S754_nan => S754_nan | _ => S754_zero false end in
  let o := LongDouble.mkvec2 (S754_zero false) (S754_zero false) in
  let p := LongDouble.mkvec2 (LongDouble.real_1_0 LongDouble.x87_extended)
                             (S754_zero false) in
  LongDouble.vec2Angle LongDouble.x87_extended acosl o o p = S754_nan.
Proof.
  cbv zeta.
  apply (vec2Angle_coincident_is_nan LongDouble.x87_extended).
  reflexivity.
Defined.

(** X20. In the IEEE reading (x87 extended, binary64, binary128),
    [ConstraintTest] returns NaN for every slope that is not finite: NaN and
    both infinities, where [K.y] is already NaN. *)
Theorem ConstraintTest_not_finite_slope
    (fmt : LongDouble.format) (acosl : spec_float -> spec_float)
    (m : spec_float) :
  fmt = LongDouble.x87_extended \/ fmt = LongDouble.binary64 \/
    fmt = LongDouble.binary128 ->
  acosl S754_nan = S754_nan ->
  LongDouble.is_finite m = false ->
  LongDouble.ConstraintTest fmt acosl m = S754_nan.
Proof.
  intros Hfmt Hacos Hm. unfold LongDouble.ConstraintTest.
  apply vec2Angle_vertex_nan; [exact Hacos |].
  destruct m as [s | s | | s mant e]; try discriminate Hm.
  - destruct Hfmt as [-> | [-> | ->]].
    + apply K_y_infinity_x87.
    + apply K_y_infinity_binary64.
    + apply K_y_infinity_binary128.
  - apply K_y_nan.
Qed.

Lemma ConstraintTest_not_finite_slope_witness :
  let acosl := fun r : spec_float =>
    match r with S754_nan => S754_nan | _ => S754_zero false end in
  LongDouble.ConstraintTest LongDouble.binary64 acosl (S754_infinity false)
    = S754_nan.
Proof.
  cbv zeta.
  apply (ConstraintTest_not_finite_slope LongDouble.binary64).
  - right; left; reflexivity.
  - reflexivity.
  - reflexivity.
Defined.

(** ** A NaN in the solver loop *)

Section NaNLoop.

Variable fmt : LongDouble.format.
Variable acosl : spec_float -> spec_float.
Variables target threshold ratio : spec_float.
Hypothesis acosl_nan : acosl S754_nan = S754_nan.

Lemma ConstraintTest_nan :
  LongDouble.ConstraintTest fmt acosl S754_nan = S754_nan.
Proof.
  unfold LongDouble.ConstraintTest.
  apply vec2Angle_vertex_nan; [exact acosl_nan | reflexivity].
Qed.

Lemma add_nan_r r : LongDouble.add fmt r S754_nan = S754_nan.
Proof. unfold LongDouble.add. destruct r; reflexivity. Qed.

Lemma loop_step_nan n m e :
  LongDouble.ConstraintTest fmt acosl m = S754_nan ->
  LongDoubleSolver.loop fmt acosl target threshold ratio (S n) m e =
  LongDoubleSolver.loop fmt acosl target threshold ratio n
    S754_nan (Some S754_nan).
Proof.
  intros H. cbn [LongDoubleSolver.loop]. rewrite H.
  unfold LongDouble.sub, LongDouble.mul. cbn [SFsub SFmul].
  unfold LongDoubleSolver.fabsl. cbn [SFabs].
  change (SFleb S754_nan threshold) with false. cbv iota.
  rewrite add_nan_r. reflexivity.
Qed.

Lemma loop_nan n :
  LongDoubleSolver.loop fmt acosl target threshold ratio n
    S754_nan (Some S754_nan) =
  LongDoubleSolver.mkstate S754_nan (Some S754_nan) 0.
Proof.
  induction n as [| n IH]; [reflexivity |].
  rewrite (loop_step_nan n _ _ ConstraintTest_nan). exact IH.
Qed.

End NaNLoop.

(** X21. In the IEEE reading, whatever the format and the values of the
    three constants: when [ConstraintTest] returns NaN at the current slope
    and at least one iteration is left, the threshold test never succeeds,
    the loop runs until the counter is zero, and it ends with both the
    slope and the error NaN. *)
Theorem loop_nan_exhausts
    (fmt : LongDouble.format) (acosl : spec_float -> spec_float)
    (target threshold ratio : spec_float)
    (n : nat) (m : spec_float) (e : option spec_float) :
  acosl S754_nan = S754_nan ->
  LongDouble.ConstraintTest fmt acosl m = S754_nan ->
  LongDoubleSolver.loop fmt acosl target threshold ratio (S n) m e =
  LongDoubleSolver.mkstate S754_nan (Some S754_nan) 0.
Proof.
  intros Hacos Hm.
  rewrite (loop_step_nan fmt acosl target threshold ratio n m e Hm).
  apply loop_nan, Hacos.
Qed.

Lemma loop_nan_exhausts_witness :
  let acosl := fun r : spec_float =>
    match r with S754_nan => S754_nan | _ => S754_zero false end in
  let one := LongDouble.real_1_0 LongDouble.x87_extended in
  LongDoubleSolver.loop LongDouble.x87_extended acosl one one one 1000
    (S754_zero false) None =
  LongDoubleSolver.mkstate S754_nan (Some S754_nan) 0.
Proof.
  cbv zeta.
  apply (loop_nan_exhausts LongDouble.x87_extended).
  - reflexivity.
  - unfold LongDouble.ConstraintTest. rewrite L_zero_x87.
    apply vec2Angle_nan. reflexivity.
Defined.

(** ** Signs under IEEE rounding *)

Section RoundingSign.

Variables prec emax : Z.

Lemma shr_1_nonneg mrs : (0 <= shr_m mrs)%Z -> (0 <= shr_m (shr_1 mrs))%Z.
Proof.
  destruct mrs as [m r s]. simpl.
  destruct m as [| [p | p |] | [p | p |]]; simpl; intros H; lia.
Qed.

Lemma iter_shr_1_nonneg p : forall mrs,
  (0 <= shr_m mrs)%Z -> (0 <= shr_m (iter_pos shr_1 p mrs))%Z.
Proof.
  induction p as [p IH | p IH |]; intros mrs H; simpl.
  - apply IH, IH, shr_1_nonneg, H.
  - apply IH, IH, H.
  - apply shr_1_nonneg, H.
Qed.

Lemma shr_record_of_loc_m m l : shr_m (shr_record_of_loc m l) = m.
Proof. destruct l as [| []]; reflexivity. Qed.

Lemma shr_fexp_nonneg m e l :
  (0 <= m)%Z -> (0 <= shr_m (fst (shr_fexp prec emax m e l)))%Z.
Proof.
  intros H. unfold shr_fexp, shr.
  destruct (Z.sub (fexp prec emax (Z.add (Zdigits2 m) e)) e);
    simpl; try (rewrite shr_record_of_loc_m; exact H).
  apply iter_shr_1_nonneg. rewrite shr_record_of_loc_m. exact H.
Qed.

Lemma round_nearest_even_nonneg m l :
  (0 <= m)%Z -> (0 <= round_nearest_even m l)%Z.
Proof.
  intros H. unfold round_nearest_even.
  destruct l as [| []]; try lia. destruct (Z.even m); lia.
Qed.

(** Rounding keeps the sign it is given. *)
Lemma binary_round_aux_sign sx mx ex lx :
  (0 <= mx)%Z -> Sign.has_sign sx (binary_round_aux prec emax sx mx ex lx).
Proof.
  intros H. unfold binary_round_aux.
  pose proof (shr_fexp_nonneg mx ex lx H) as H1.
  destruct (shr_fexp prec emax mx ex lx) as [mrs' e']. simpl in H1.
  pose proof (shr_fexp_nonneg _ e' loc_Exact
                (round_nearest_even_nonneg _ (loc_of_shr_record mrs') H1)) as H2.
  destruct (shr_fexp prec emax
              (round_nearest_even (shr_m mrs') (loc_of_shr_record mrs'))
              e' loc_Exact) as [mrs'' e''].
  simpl in H2.
  destruct (shr_m mrs'') as [| m | m]; simpl.
  - reflexivity.
  - destruct (Z.leb e'' (Z.sub emax prec)); reflexivity.
  - lia.
Qed.

Lemma binary_round_sign sx mx ex :
  Sign.has_sign sx (binary_round prec emax sx mx ex).
Proof.
  unfold binary_round.
  destruct (shl_align mx ex (fexp prec emax (Z.add (Zpos (digits2_pos mx)) ex)))
    as [mz ez].
  apply binary_round_aux_sign. lia.
Qed.

Lemma has_sign_false_nonneg r :
  Sign.has_sign false r -> Sign.is_nonneg r = true.
Proof.
  destruct r as [[|] | [|] | | [|] m e]; simpl; intros H;
    congruence || contradiction || reflexivity.
Qed.

(** The square of anything but NaN. *)
Lemma SFmul_self_nonneg r :
  Sign.is_nan r = false -> Sign.is_nonneg (SFmul prec emax r r) = true.
Proof.
  destruct r as [[|] | [|] | | s m e]; simpl; intros H;
    try reflexivity; try discriminate.
  apply has_sign_false_nonneg.
  replace false with (xorb s s) at 1 by (destruct s; reflexivity).
  apply binary_round_aux_sign. lia.
Qed.

Lemma SFadd_nonneg r r' :
  Sign.is_nonneg r = true -> Sign.is_nonneg r' = true ->
  Sign.is_nonneg (SFadd prec emax r r') = true.
Proof.
  destruct r as [[|] | [|] | | [|] m e]; simpl; intros H; try discriminate;
    destruct r' as [[|] | [|] | | [|] m' e']; simpl; intros H';
    try discriminate; try reflexivity.
  apply has_sign_false_nonneg, binary_round_sign.
Qed.

Lemma Zsqrtrem_nonneg n : (0 <= fst (Z.sqrtrem n))%Z.
Proof.
  destruct n as [| p | p]; simpl; try lia.
  destruct (Pos.sqrtrem p) as [s [| r |]]; simpl; lia.
Qed.

Lemma SFsqrt_nonneg r :
  Sign.is_nonneg r = true -> Sign.is_nonneg (SFsqrt prec emax r) = true.
Proof.
  destruct r as [[|] | [|] | | [|] m e]; simpl; intros H; try discriminate;
    try reflexivity.
  apply has_sign_false_nonneg.
  unfold SFsqrt_core_binary.
  match goal with
  | |- context [Z.sqrtrem ?n] =>
      pose proof (Zsqrtrem_nonneg n) as Hq; destruct (Z.sqrtrem n) as [q r]
  end.
  simpl in Hq. apply binary_round_aux_sign. exact Hq.
Qed.

End RoundingSign.

(** ** [vec2Magnitude] in long double *)

Section MagnitudeSign.

Variable fmt : LongDouble.format.

Lemma radicand_nonneg v :
  Sign.is_nan (LongDouble.x v) = false ->
  Sign.is_nan (LongDouble.y v) = false ->
  Sign.is_nonneg (LongDoubleSpec.vec2MagnitudeRadicand fmt v) = true.
Proof.
  intros Hx Hy.
  unfold LongDoubleSpec.vec2MagnitudeRadicand, LongDouble.add, LongDouble.mul.
  apply SFadd_nonneg; apply SFmul_self_nonneg; assumption.
Qed.

Lemma radicand_nan v :
  Sign.is_nan (LongDouble.x v) = true \/ Sign.is_nan (LongDouble.y v) = true ->
  LongDoubleSpec.vec2MagnitudeRadicand fmt v = S754_nan.
Proof.
  unfold LongDoubleSpec.vec2MagnitudeRadicand, LongDouble.add, LongDouble.mul.
  intros [H | H].
  - destruct (LongDouble.x v); try discriminate. reflexivity.
  - destruct (LongDouble.y v); try discriminate. simpl.
    destruct (SFmul (LongDouble.prec fmt) (LongDouble.emax fmt)
                (LongDouble.x v) (LongDouble.x v)); reflexivity.
Qed.

Lemma nonneg_leb r :
  Sign.is_nonneg r = true -> SFleb (S754_zero false) r = true.
Proof.
  destruct r as [[|] | [|] | | [|] m e]; intros H;
    try discriminate H; reflexivity.
Qed.

Lemma leb_not_nan r :
  SFleb (S754_zero false) r = true -> Sign.is_nan r = false.
Proof. destruct r; intros H; try reflexivity. cbv in H. discriminate H. Qed.

Lemma magnitude_nonneg v :
  Sign.is_nan (LongDouble.x v) = false ->
  Sign.is_nan (LongDouble.y v) = false ->
  Sign.is_nonneg (LongDouble.vec2Magnitude fmt v) = true.
Proof.
  intros Hx Hy.
  change (LongDouble.vec2Magnitude fmt v)
    with (LongDouble.sqrtl fmt (LongDoubleSpec.vec2MagnitudeRadicand fmt v)).
  unfold LongDouble.sqrtl.
  apply SFsqrt_nonneg, radicand_nonneg; assumption.
Qed.

Lemma magnitude_zero v :
  Float754.is_zero (LongDouble.x v) = true ->
  Float754.is_zero (LongDouble.y v) = true ->
  LongDouble.vec2Magnitude fmt v = S754_zero false.
Proof.
  unfold LongDouble.vec2Magnitude, LongDouble.sqrtl, LongDouble.add,
    LongDouble.mul.
  destruct (LongDouble.x v) as [[|] | | |]; try discriminate;
    destruct (LongDouble.y v) as [[|] | | |]; try discriminate; reflexivity.
Qed.

End MagnitudeSign.

(** C9. In long double, [vec2Magnitude v] is [sqrtl] of [vec2Dot v v]; for a
    vector without a NaN coordinate it is never negative and never NaN
    (it is [+0], a positive number or [+infinity]); and it is [+0] for the
    zero vector, whatever the signs of its zeros.  The converse is not
    stated: it fails when both squares underflow. *)
Theorem vec2Magnitude_ieee (fmt : LongDouble.format) (v : LongDouble.vec2) :
  Sign.is_nan (LongDouble.x v) = false ->
  Sign.is_nan (LongDouble.y v) = false ->
  LongDouble.vec2Magnitude fmt v =
    LongDouble.sqrtl fmt (LongDouble.vec2Dot fmt v v) /\
  SFleb (S754_zero false) (LongDouble.vec2Magnitude fmt v) = true /\
  Sign.is_nonneg (LongDouble.vec2Magnitude fmt v) = true /\
  (Float754.is_zero (LongDouble.x v) = true ->
   Float754.is_zero (LongDouble.y v) = true ->
   LongDouble.vec2Magnitude fmt v = S754_zero false).
Proof.
  intros Hx Hy.
  pose proof (magnitude_nonneg fmt v Hx Hy) as H.
  split; [reflexivity | split; [apply nonneg_leb, H | split; [exact H |]]].
  apply magnitude_zero.
Qed.

Lemma vec2Magnitude_ieee_witness :
  let v := LongDouble.mkvec2 (LongDouble.literal LongDouble.x87_extended 3 0)
                             (LongDouble.literal LongDouble.x87_extended 4 0) in
  SFleb (S754_zero false)
        (LongDouble.vec2Magnitude LongDouble.x87_extended v) = true.
Proof.
  cbv zeta.
  apply (vec2Magnitude_ieee LongDouble.x87_extended); reflexivity.
Defined.

(** The nonzero finite vector [(2^-8300, 0)] has magnitude [0] in the x87
    extended format: its square underflows. *)
Lemma vec2Magnitude_underflow :
  let v := LongDouble.mkvec2
             (LongDouble.literal LongDouble.x87_extended 1 (-8300))
             (S754_zero false) in
  LongDouble.is_finite (LongDouble.x v) = true /\
  LongDouble.is_finite (LongDouble.y v) = true /\
  Float754.is_zero (LongDouble.x v) = false /\
  LongDouble.vec2Magnitude LongDouble.x87_extended v = S754_zero false.
Proof. vm_compute. repeat split. Qed.

(** ** Lengths on a grid of slopes *)

Section GridFacts.

Lemma below_spec n p :
  Grid.below n p = true -> forall k, (k < n)%nat -> p k = true.
Proof.
  induction n as [| n IH]; simpl; intros H k Hk; [lia |].
  apply andb_prop in H. destruct H as [H1 H2].
  destruct (Nat.eq_dec k n) as [-> | Hne];
    [exact H1 | apply IH; [exact H2 | lia]].
Qed.

Lemma jRadicand_grid : Grid.below 128 Grid.jRadicand_nonneg = true.
Proof. vm_compute. reflexivity. Qed.









End GridFacts.

(** C7. For every real slope [m] the radicand [2 * K.x] of [j] is
    [2 * (1 - 1 / sqrt (m * m + 1))] and is non-negative; the long double
    value of that radicand is [>= 0] at each slope [k/64], [k < 128] (x87
    extended).  The radicand of [vec2Magnitude v], a sum of two squares, is
    [>= 0] in long double exactly when neither coordinate of [v] is NaN: it
    is NaN for [K - L] wherever [L] is NaN, so that invariant does not hold
    at every slope. *)
Theorem radicands_nonneg_unless_nan
    (m : R) (fmt : LongDouble.format) (v : LongDouble.vec2) :
  0 <= CT.jRadicand m /\
  CT.jRadicand m = 2 * (1 - 1 / sqrt (m * m + 1)) /\
  (forall k, (k < 128)%nat ->
     SFleb (S754_zero false)
           (LongDoubleSpec.jRadicand LongDouble.x87_extended
              (LongDoubleSpec.slope64 LongDouble.x87_extended k)) = true) /\
  (SFleb (S754_zero false)
         (LongDoubleSpec.vec2MagnitudeRadicand fmt v) = true <->
   Sign.is_nan (LongDouble.x v) = false /\
   Sign.is_nan (LongDouble.y v) = false).
Proof.
  split; [| split; [| split]].
  - unfold CT.jRadicand. pose proof (K_x_nonneg m). lra.
  - unfold CT.jRadicand; simpl. literals. reflexivity.
  - intros k Hk. exact (below_spec _ _ jRadicand_grid k Hk).
  - split.
    + intros H. apply leb_not_nan in H.
      destruct (Sign.is_nan (LongDouble.x v)) eqn:Hx.
      { rewrite (radicand_nan fmt v) in H by (left; exact Hx). discriminate. }
      destruct (Sign.is_nan (LongDouble.y v)) eqn:Hy.
      { rewrite (radicand_nan fmt v) in H by (right; exact Hy). discriminate. }
      split; reflexivity.
    + intros [Hx Hy]. apply nonneg_leb, radicand_nonneg; assumption.
Qed.

Lemma radicands_nonneg_unless_nan_witness :
  SFleb (S754_zero false)
        (LongDoubleSpec.jRadicand LongDouble.x87_extended
           (LongDoubleSpec.slope64 LongDouble.x87_extended 64)) = true.
Proof.
  assert (H : (64 < 128)%nat) by (repeat constructor).
  exact (proj1 (proj2 (proj2
           (radicands_nonneg_unless_nan 1 LongDouble.x87_extended
              (LongDouble.B LongDouble.x87_extended)))) 64%nat H).
Defined.

(** At the slope [0] the vector [K - L] has NaN coordinates and the radicand
    of its magnitude is NaN, which is not [>= 0]. *)
Lemma radicand_nan_at_zero :
  let m := S754_zero false in
  let v := LongDouble.vec2Subtract LongDouble.x87_extended
             (LongDouble.K LongDouble.x87_extended m)
             (LongDouble.L LongDouble.x87_extended m) in
  LongDoubleSpec.vec2MagnitudeRadicand LongDouble.x87_extended v = S754_nan /\
  SFleb (S754_zero false)
        (LongDoubleSpec.vec2MagnitudeRadicand LongDouble.x87_extended v)
    = false.
Proof. vm_compute. split; reflexivity. Qed.




(** ** The point halfway between C and B *)

Section HalfwayPoint.




End HalfwayPoint.




(** ** The angle whichever way the differences are taken *)

Section SignSymmetry.

Variables prec emax : Z.














End SignSymmetry.

Section AngleSymmetry.

Variable fmt : LongDouble.format.
Variable acosl : spec_float -> spec_float.
Hypothesis acosl_zero : acosl (S754_zero true) = acosl (S754_zero false).





End AngleSymmetry.



